(** * CRR binomial option valuation: a shallow embedding of [CRR_option_value]

    Source: [vanilla_pricing/Binomial Option Valuation.ipynb], the single
    function [CRR_option_value(S0, K, T, r, sigma, otype, M=4)].

    Python floats are idealised as the real numbers of the Standard Library:
    [math.exp] is [exp], [math.sqrt] is [sqrt] on its domain, and float
    rounding, overflow and underflow are not modelled: [math.exp] never
    raises [OverflowError] here, and [u = d] only when
    [sigma * sqrt dt = 0].  The statements below about returned values are
    statements of this idealisation; the statements about failures only
    say that no price is returned, or concern inputs where the zero
    divisor is exact.  [M] is a Python
    [int], here a [Z]; [otype] is a string.  Python's exceptions are
    explicit: every fallible primitive returns a [result], and the
    statements of the function are sequenced in the source's order, so the
    first exception raised is the one returned.  The numpy arrays are lists
    of rows, indexed [V[i, t]] by row (state) [i] and column (time) [t];
    the in-place column update of the backward loop is an explicit
    grid-to-grid function.  Inside the loop, which only runs for [M >= 1],
    [M] and [t] are natural numbers. *)

From Stdlib Require Import Reals ZArith String List Bool Arith Lra Lia Psatz.
Import ListNotations.
Open Scope R_scope.

(** ** Exceptions and the error monad *)

(** The Python exceptions the routine can raise. *)
Inductive exn : Type :=
| ZeroDivisionError
| ValueError
| IndexError.

Inductive result (A : Type) : Type :=
| Ok (a : A)
| Raise (e : exn).

Arguments Ok {A} a.
Arguments Raise {A} e.

Definition bind {A B : Type} (c : result A) (k : A -> result B) : result B :=
  match c with
  | Ok a => k a
  | Raise e => Raise e
  end.

Notation "x <- c ;; k" := (bind c (fun x => k))
  (at level 61, c at next level, right associativity).

Definition is_ok {A : Type} (c : result A) : Prop :=
  match c with
  | Ok _ => True
  | Raise _ => False
  end.

(** ** Scalar primitives *)

(** Python's [a / b] on floats: division by zero raises. *)
Definition py_truediv (a b : R) : result R :=
  if Req_dec_T b 0 then Raise ZeroDivisionError else Ok (a / b).

(** [math.sqrt]: a negative argument raises "math domain error". *)
Definition math_sqrt (x : R) : result R :=
  if Rlt_dec x 0 then Raise ValueError else Ok (sqrt x).

(** ** numpy arrays as lists of rows *)

Definition grid (A : Type) : Type := list (list A).

(** [np.arange(n)]: the integers [0 .. n-1], empty when [n <= 0]. *)
Definition np_arange (n : Z) : list Z :=
  map Z.of_nat (seq 0 (Z.to_nat n)).

(** [np.resize(a, (rows, cols))]: a negative dimension raises; an empty
    source or an empty shape gives zeros; otherwise the new array is filled
    in row-major order with repeated copies of [a]. *)
Definition np_resize (a : list Z) (rows cols : Z) : result (grid Z) :=
  if ((rows <? 0)%Z || (cols <? 0)%Z)%bool then Raise ValueError
  else
    let nr := Z.to_nat rows in
    let nc := Z.to_nat cols in
    match a with
    | [] => Ok (map (fun _ => map (fun _ => 0%Z) (seq 0 nc)) (seq 0 nr))
    | _ :: _ =>
        Ok (map (fun i =>
                   map (fun j => nth ((i * nc + j) mod length a)%nat a 0%Z)
                       (seq 0 nc))
                (seq 0 nr))
    end.

(** [np.transpose] of a two-dimensional array. *)
Definition np_transpose {A : Type} (dflt : A) (g : grid A) : grid A :=
  let nc := match g with [] => O | row :: _ => length row end in
  map (fun j => map (fun row => nth j row dflt) g) (seq 0 nc).

(** Elementwise operations (scalar broadcast and array-array). *)
Definition grid_map {A B : Type} (f : A -> B) (g : grid A) : grid B :=
  map (map f) g.

Definition zip_with {A B C : Type} (f : A -> B -> C)
  (xs : list A) (ys : list B) : list C :=
  map (fun p => f (fst p) (snd p)) (combine xs ys).

Definition grid_map2 {A B C : Type} (f : A -> B -> C)
  (g : grid A) (h : grid B) : grid C :=
  zip_with (zip_with f) g h.

(** [V[a:b, c]]: column [c] of the rows [a .. b-1]. *)
Definition col_slice (V : grid R) (a b c : nat) : list R :=
  map (fun row => nth c row 0) (firstn (b - a) (skipn a V)).

(** [row[c] = x] on one row. *)
Fixpoint list_set (c : nat) (x : R) (row : list R) : list R :=
  match row, c with
  | [], _ => []
  | _ :: tl, O => x :: tl
  | y :: tl, S c' => y :: list_set c' x tl
  end.

(** Column [c] of the leading rows of [V] is overwritten with [vals], row
    by row, for as long as there are rows and values. *)
Fixpoint assign_col (V : grid R) (c : nat) (vals : list R) : grid R :=
  match V, vals with
  | row :: V', x :: vals' => list_set c x row :: assign_col V' c vals'
  | _, _ => V
  end.

(** [V[a:b, c] = vals]: the slice assignment of the backward loop.  The
    source always assigns as many values as the slice has rows (numpy
    would raise on a shape mismatch). *)
Definition set_col_slice (V : grid R) (a b c : nat) (vals : list R)
  : grid R :=
  firstn a V ++ assign_col (skipn a V) c (firstn (b - a) vals).

(** [V[i, j]]: an index out of bounds raises. *)
Definition grid_get (V : grid R) (i j : nat) : result R :=
  match nth_error V i with
  | Some row =>
      match nth_error row j with
      | Some v => Ok v
      | None => Raise IndexError
      end
  | None => Raise IndexError
  end.

(** ** The valuation function *)

(** Inner values: [np.maximum(S - K, 0)] for ['call'], and
    [np.maximum(K - S, 0)] in the [else] branch. *)
Definition inner_values (otype : string) (K : R) (S : grid R) : grid R :=
  if String.eqb otype "call"
  then grid_map (fun s => Rmax (s - K) 0) S
  else grid_map (fun s => Rmax (K - s) 0) S.

(** One iteration of the loop body, at time index [t]:
    [V[0:M-t, t] = (q * V[0:M-t, t+1] + (1-q) * V[1:M-t+1, t+1]) * df]. *)
Definition valuation_step (q df : R) (M t : nat) (V : grid R) : grid R :=
  set_col_slice V 0 (M - t) t
    (zip_with (fun a b => (q * a + (1 - q) * b) * df)
       (col_slice V 0 (M - t) (t + 1))
       (col_slice V 1 (M - t + 1) (t + 1))).

(** [range(M - 1, -1, -1)]: [M-1, M-2, ..., 0]. *)
Definition range_down (M : nat) : list nat := rev (seq 0 M).

(** The whole loop [for t in range(M - 1, -1, -1): ...]. *)
Definition backwards_valuation (q df : R) (M : nat) (V : grid R) : grid R :=
  fold_left (fun W t => valuation_step q df M t W) (range_down M) V.

(** Index levels: [S = S0 * u ** (mu - md) * d ** md] where [mu[i,t] = t]
    and [md[i,t] = i]. *)
Definition index_levels (S0 u d : R) (mu : grid Z) : grid R :=
  let md := np_transpose 0%Z mu in
  let mu' := grid_map (powerRZ u) (grid_map2 Z.sub mu md) in
  let md' := grid_map (powerRZ d) md in
  grid_map2 Rmult (grid_map (Rmult S0) mu') md'.

Definition CRR_option_value
  (S0 K T r sigma : R) (otype : string) (M : Z) : result R :=
  dt <- py_truediv T (IZR M) ;;
  let df := exp (- r * dt) in
  sq <- math_sqrt dt ;;
  let u := exp (sigma * sq) in
  d <- py_truediv 1 u ;;
  q <- py_truediv (exp (r * dt) - d) (u - d) ;;
  mu <- np_resize (np_arange (M + 1)) (M + 1) (M + 1) ;;
  let S := index_levels S0 u d mu in
  let V := inner_values otype K S in
  let V := backwards_valuation q df (Z.to_nat M) V in
  grid_get V 0 0.

(** ** Auxiliary definitions used in statements and proofs *)

(** What [V[i, j]] holds; [0] outside the array (used in statements only
    for indices inside it). *)
Definition cell (V : grid R) (i j : nat) : R := nth j (nth i V []) 0.

(** An [n] by [n] array. *)
Definition square {A : Type} (n : nat) (g : grid A) : Prop :=
  length g = n /\ Forall (fun row => length row = n) g.

(** The content of cell [(i, t)], [t = M - k], once the loop has passed
    column [t], as a function of the initial contents [V0]: the rows
    [i < M - t] are a discounted average of their two successors in column
    [t + 1], the other rows still hold their initial content.  (Derived
    from the loop by [loop_invariant] below.) *)
Fixpoint lattice_value (q df : R) (M : nat) (V0 : nat -> nat -> R)
  (k i : nat) : R :=
  match k with
  | O => V0 i M
  | S k' =>
      if (i <? S k')%nat
      then (q * lattice_value q df M V0 k' i
            + (1 - q) * lattice_value q df M V0 k' (i + 1)) * df
      else V0 i (M - S k')%nat
  end.

(** Generic two-dimensional indexing with a default. *)
Definition at2 {A : Type} (d : A) (g : grid A) (i j : nat) : A :=
  nth j (nth i g []) d.

(** Cell [(i, t)] of the index-level array and of the inner values. *)
Definition index_level (S0 u d : R) (i t : nat) : R :=
  S0 * powerRZ u (Z.of_nat t - Z.of_nat i) * powerRZ d (Z.of_nat i).

Definition inner_value (otype : string) (K s : R) : R :=
  if String.eqb otype "call" then Rmax (s - K) 0 else Rmax (K - s) 0.

(** The initial content of cell [(i, t)] of [V], before the loop. *)
Definition initial_value (S0 K u d : R) (otype : string) (i t : nat) : R :=
  inner_value otype K (index_level S0 u d i t).

(** The local variables [dt], [df], [u], [d] and [q] of the source, as
    functions of the arguments (meaningful where no division raised). *)
Definition dt_of (T : R) (M : Z) : R := T / IZR M.
Definition df_of (T r : R) (M : Z) : R := exp (- r * dt_of T M).
Definition u_of (T sigma : R) (M : Z) : R := exp (sigma * sqrt (dt_of T M)).
Definition d_of (T sigma : R) (M : Z) : R := 1 / u_of T sigma M.
Definition q_of (T r sigma : R) (M : Z) : R :=
  (exp (r * dt_of T M) - d_of T sigma M)
  / (u_of T sigma M - d_of T sigma M).

(** [x^k / k!], and the partial sum up to degree [n]. *)
Fixpoint exp_term (x : R) (k : nat) : R :=
  match k with
  | O => 1
  | S k' => exp_term x k' * x / INR (S k')
  end.

Fixpoint exp_partial (x : R) (n : nat) : R :=
  match n with
  | O => 1
  | S n' => exp_partial x n' + exp_term x (S n')
  end.

(** ** The backward induction as the specification words it

    A second definition, which follows the specification and not the
    source, to compare the two.  The lattice parameters are derived as in
    the source.  The asset price at state [i] of step [t] is
    [initial_price * u^(t-i) * d^i]; the terminal payoff is
    [max(price - strike, 0)] for a call and [max(strike - price, 0)] for a
    put; and for [t] from [steps - 1] down to [0] every state [i] from [0]
    to [t] gets [value[i,t] = df * (q * value[i,t+1] + (1-q) *
    value[i+1,t+1])].  The price is [value[0,0]]. *)
Inductive option_kind : Type := Call | Put.

Definition spec_asset_price (S0 u d : R) (i t : nat) : R :=
  S0 * u ^ (t - i) * d ^ i.

Definition spec_payoff (kind : option_kind) (K price : R) : R :=
  match kind with
  | Call => Rmax (price - K) 0
  | Put => Rmax (K - price) 0
  end.

(** [spec_value q df terminal k i] is [value[i, steps - k]]. *)
Fixpoint spec_value (q df : R) (terminal : nat -> R) (k i : nat) : R :=
  match k with
  | O => terminal i
  | S k' =>
      df * (q * spec_value q df terminal k' i
            + (1 - q) * spec_value q df terminal k' (i + 1))
  end.

Definition spec_price (S0 K T r sigma : R) (kind : option_kind)
  (steps : Z) : R :=
  let n := Z.to_nat steps in
  spec_value (q_of T r sigma steps) (df_of T r steps)
    (fun i => spec_payoff kind K
                (spec_asset_price S0 (u_of T sigma steps)
                   (d_of T sigma steps) i n))
    n 0.

(** ** The primitives on small inputs *)

Example np_arange_3 : np_arange 3 = [0; 1; 2]%Z.
Proof. reflexivity. Qed.

Example range_down_4 : range_down 4 = [3; 2; 1; 0]%nat.
Proof. reflexivity. Qed.

(** [mu] and [md] for [M = 2]: [mu[i,t] = t] and [md[i,t] = i]. *)
Example np_resize_arange_3 :
  np_resize (np_arange 3) 3 3
    = Ok [[0; 1; 2]; [0; 1; 2]; [0; 1; 2]]%Z.
Proof. reflexivity. Qed.

Example np_transpose_3 :
  np_transpose 0%Z [[0; 1; 2]; [0; 1; 2]; [0; 1; 2]]%Z
    = [[0; 0; 0]; [1; 1; 1]; [2; 2; 2]]%Z.
Proof. reflexivity. Qed.

Example np_resize_negative : np_resize (np_arange (-1)) (-1) (-1)
                             = Raise ValueError.
Proof. reflexivity. Qed.

(** The loop body for [M = 2]: at [t = 1] the slice [0:M-t] is row 0
    alone, at [t = 0] it is the rows 0 and 1. *)
Example valuation_step_2_1 (q df a b c d e f g h k : R) :
  valuation_step q df 2 1 [[a; b; c]; [d; e; f]; [g; h; k]]
    = [[a; (q * c + (1 - q) * f) * df; c]; [d; e; f]; [g; h; k]].
Proof. reflexivity. Qed.

Example valuation_step_2_0 (q df a b c d e f g h k : R) :
  valuation_step q df 2 0 [[a; b; c]; [d; e; f]; [g; h; k]]
    = [[(q * b + (1 - q) * e) * df; b; c];
       [(q * e + (1 - q) * h) * df; e; f];
       [g; h; k]].
Proof. reflexivity. Qed.

(** The whole loop for [M = 2]: the returned cell is computed from
    [V[0,2]], [V[1,2]] and the initial content [e] of [V[1,1]], a cell
    that no iteration assigns. *)
Example backwards_valuation_2 (q df a b c d e f g h k : R) :
  grid_get (backwards_valuation q df 2 [[a; b; c]; [d; e; f]; [g; h; k]])
    0 0
    = Ok ((q * ((q * c + (1 - q) * f) * df) + (1 - q) * e) * df).
Proof. reflexivity. Qed.

(** ** Reading grids by index *)

Lemma nth_nil_R (c : nat) : nth c (@nil R) 0 = 0.
Proof. destruct c; reflexivity. Qed.

Lemma square_row {A : Type} (n : nat) (g : grid A) (i : nat) (d : list A) :
  square n g -> (i < n)%nat -> length (nth i g d) = n.
Proof.
  intros [Hlen Hrows] Hi.
  rewrite Forall_forall in Hrows.
  apply Hrows, nth_In. lia.
Qed.

Lemma length_list_set (c : nat) (x : R) (row : list R) :
  length (list_set c x row) = length row.
Proof.
  revert c; induction row as [|y tl IH]; intros [|c]; simpl; auto.
Qed.

Lemma nth_list_set (c : nat) (x : R) (row : list R) (j : nat) :
  (c < length row)%nat ->
  nth j (list_set c x row) 0 = if (j =? c)%nat then x else nth j row 0.
Proof.
  revert c j; induction row as [|y tl IH]; intros c j Hc; simpl in Hc.
  - lia.
  - destruct c as [|c], j as [|j]; simpl; auto.
    apply IH. lia.
Qed.

Lemma length_assign_col (V : grid R) (c : nat) (vals : list R) :
  length (assign_col V c vals) = length V.
Proof.
  revert vals; induction V as [|row V IH]; intros [|x vals]; simpl; auto.
Qed.

Lemma square_assign_col (n : nat) (V : grid R) (c : nat) (vals : list R) :
  square n V -> square n (assign_col V c vals).
Proof.
  intros [Hlen Hrows]. split.
  - now rewrite length_assign_col.
  - clear Hlen. revert vals.
    induction Hrows as [|row V Hrow Hrows IH]; intros [|x vals]; simpl;
      try (constructor; auto).
    now rewrite length_list_set.
Qed.

(** Slice assignment changes column [c] of the first [length vals] rows
    and nothing else. *)
Lemma cell_assign_col (n : nat) (V : grid R) (c : nat) (vals : list R)
  (i j : nat) :
  Forall (fun row => length row = n) V -> (c < n)%nat ->
  (length vals <= length V)%nat ->
  cell (assign_col V c vals) i j =
    if ((j =? c)%nat && (i <? length vals)%nat)%bool
    then nth i vals 0 else cell V i j.
Proof.
  intros Hrows Hc. revert vals i.
  induction Hrows as [|row V Hrow Hrows IH]; intros vals i Hlen.
  - destruct vals; simpl in *; [|lia].
    now rewrite andb_false_r.
  - destruct vals as [|x vals]; simpl.
    + now rewrite andb_false_r.
    + destruct i as [|i]; unfold cell; simpl.
      * rewrite nth_list_set by lia.
        destruct (j =? c)%nat; reflexivity.
      * simpl in Hlen. apply (IH vals i). lia.
Qed.

Lemma nth_col_slice (V : grid R) (a b c i : nat) :
  (i < b - a)%nat -> nth i (col_slice V a b c) 0 = cell V (a + i) c.
Proof.
  intros Hi. unfold col_slice, cell.
  rewrite <- (nth_nil_R c) at 1.
  rewrite (map_nth (fun row => nth c row 0)), nth_firstn, nth_skipn.
  apply Nat.ltb_lt in Hi. now rewrite Hi.
Qed.

Lemma length_col_slice (V : grid R) (a b c : nat) :
  length (col_slice V a b c) = Nat.min (b - a) (length V - a).
Proof.
  unfold col_slice. now rewrite length_map, length_firstn, length_skipn.
Qed.

Lemma length_zip_with {A B C : Type} (f : A -> B -> C) xs ys :
  length (zip_with f xs ys) = Nat.min (length xs) (length ys).
Proof. unfold zip_with. now rewrite length_map, length_combine. Qed.

Lemma nth_zip_with {A B C : Type} (f : A -> B -> C) xs ys i dx dy dz :
  (i < length xs)%nat -> (i < length ys)%nat ->
  nth i (zip_with f xs ys) dz = f (nth i xs dx) (nth i ys dy).
Proof.
  revert ys i; induction xs as [|x xs IH]; intros [|y ys] [|i] Hx Hy;
    simpl in *; try lia; auto.
  apply IH; lia.
Qed.

(** ** What the backward loop computes *)

Section Backward.
Variables (q df : R) (M : nat).

(** One loop iteration, cell by cell: column [t] of the rows
    [0 .. M-t-1] is recomputed from column [t+1], everything else is
    left as it was. *)
Lemma cell_valuation_step (V : grid R) (t i j : nat) :
  square (M + 1) V -> (t < M)%nat ->
  cell (valuation_step q df M t V) i j =
    if ((j =? t)%nat && (i <? M - t)%nat)%bool
    then (q * cell V i (t + 1) + (1 - q) * cell V (i + 1) (t + 1)) * df
    else cell V i j.
Proof.
  intros [Hlen Hrows] Ht. unfold valuation_step.
  set (up := col_slice V 0 (M - t) (t + 1)).
  set (down := col_slice V 1 (M - t + 1) (t + 1)).
  assert (Hup : length up = (M - t)%nat)
    by (unfold up; rewrite length_col_slice; lia).
  assert (Hdown : length down = (M - t)%nat)
    by (unfold down; rewrite length_col_slice; lia).
  assert (Hzip : length (zip_with (fun a b => (q * a + (1 - q) * b) * df)
                          up down) = (M - t)%nat)
    by (rewrite length_zip_with; lia).
  unfold set_col_slice. cbn [firstn skipn app].
  rewrite firstn_all2 by lia.
  rewrite (cell_assign_col (M + 1)); auto; try lia.
  rewrite length_zip_with, Hup, Hdown, Nat.min_id.
  destruct (j =? t)%nat; simpl; auto.
  destruct (i <? M - t)%nat eqn:Hi; auto.
  apply Nat.ltb_lt in Hi.
  rewrite (nth_zip_with _ up down i 0 0) by lia.
  unfold up, down. rewrite !nth_col_slice by lia.
  now replace (1 + i)%nat with (i + 1)%nat by lia.
Qed.

Lemma square_valuation_step (V : grid R) (t : nat) :
  square (M + 1) V -> square (M + 1) (valuation_step q df M t V).
Proof.
  intros H. unfold valuation_step, set_col_slice. cbn [firstn skipn app].
  now apply square_assign_col.
Qed.

Lemma backwards_valuation_fold (V : grid R) :
  backwards_valuation q df M V =
    fold_right (fun t W => valuation_step q df M t W) V (seq 0 M).
Proof.
  unfold backwards_valuation, range_down.
  rewrite <- (rev_involutive (seq 0 M)) at 2.
  now rewrite fold_left_rev_right.
Qed.

(** Loop invariant: after the iterations for [t = M-1, ..., a], the
    columns from [a] on hold [lattice_value], the columns before [a]
    are untouched. *)
Lemma loop_invariant (V : grid R) (len a : nat) :
  (a + len = M)%nat -> square (M + 1) V ->
  let W := fold_right (fun t W => valuation_step q df M t W) V
             (seq a len) in
  square (M + 1) W /\
  forall i j, (j <= M)%nat ->
    cell W i j =
      if (a <=? j)%nat then lattice_value q df M (cell V) (M - j) i
      else cell V i j.
Proof.
  revert a. induction len as [|len IH]; intros a Ha HV; simpl.
  - split; auto. intros i j Hj.
    destruct (a <=? j)%nat eqn:E; auto.
    apply Nat.leb_le in E.
    replace (M - j)%nat with O by lia. simpl.
    now replace j with M by lia.
  - destruct (IH (S a)) as [Hsq Hcell]; auto; try lia.
    split; [now apply square_valuation_step|].
    intros i j Hj.
    rewrite cell_valuation_step by (auto; lia).
    destruct (j =? a)%nat eqn:Eja; simpl.
    + apply Nat.eqb_eq in Eja. subst j.
      rewrite Nat.leb_refl.
      replace (M - a)%nat with (S len) by lia.
      cbn [lattice_value].
      replace (M - S len)%nat with a by lia.
      destruct (i <? S len)%nat eqn:Ei.
      * rewrite !Hcell by lia.
        replace (S a <=? a + 1)%nat with true
          by (symmetry; apply Nat.leb_le; lia).
        now replace (M - (a + 1))%nat with len by lia.
      * rewrite Hcell by lia.
        now replace (S a <=? a)%nat with false
          by (symmetry; apply Nat.leb_gt; lia).
    + apply Nat.eqb_neq in Eja.
      rewrite Hcell by lia.
      destruct (S a <=? j)%nat eqn:E1, (a <=? j)%nat eqn:E2; auto.
      * apply Nat.leb_le in E1. apply Nat.leb_gt in E2. lia.
      * apply Nat.leb_gt in E1. apply Nat.leb_le in E2. lia.
Qed.

(** The cell that is returned. *)
Lemma backwards_valuation_cell00 (V : grid R) :
  square (M + 1) V ->
  grid_get (backwards_valuation q df M V) 0 0
    = Ok (lattice_value q df M (cell V) M 0).
Proof.
  intros HV. rewrite backwards_valuation_fold.
  destruct (loop_invariant V M 0) as [Hsq Hcell]; auto.
  specialize (Hcell O O (Nat.le_0_l M)). simpl in Hcell.
  rewrite Nat.sub_0_r in Hcell.
  set (W := fold_right _ _ _) in *.
  unfold grid_get.
  destruct Hsq as [Hlen Hrows].
  rewrite (nth_error_nth' W []) by lia.
  assert (Hrow : length (nth 0 W []) = (M + 1)%nat)
    by (apply square_row; [split; auto | lia]).
  rewrite (nth_error_nth' _ 0) by lia.
  f_equal. exact Hcell.
Qed.

End Backward.

(** ** The grids that are built before the loop *)

Lemma cell_at2 (V : grid R) (i j : nat) : cell V i j = at2 0 V i j.
Proof. reflexivity. Qed.

Lemma nth_map_seq {A : Type} (f : nat -> A) (n i : nat) (d : A) :
  (i < n)%nat -> nth i (map f (seq 0 n)) d = f i.
Proof.
  intros Hi.
  rewrite (nth_indep _ d (f O)) by (rewrite length_map, length_seq; lia).
  rewrite (map_nth f), seq_nth; auto.
Qed.

Lemma square_tabulate {A : Type} (f : nat -> nat -> A) (n : nat) :
  square n (map (fun i => map (fun j => f i j) (seq 0 n)) (seq 0 n)).
Proof.
  split.
  - now rewrite length_map, length_seq.
  - apply Forall_forall. intros row Hin.
    apply in_map_iff in Hin. destruct Hin as [i [<- _]].
    now rewrite length_map, length_seq.
Qed.

Lemma at2_tabulate {A : Type} (f : nat -> nat -> A) (n i j : nat) (d : A) :
  (i < n)%nat -> (j < n)%nat ->
  at2 d (map (fun i => map (fun j => f i j) (seq 0 n)) (seq 0 n)) i j
    = f i j.
Proof.
  intros Hi Hj. unfold at2.
  rewrite (nth_map_seq (fun i => map (fun j => f i j) (seq 0 n))) by lia.
  now rewrite (nth_map_seq (f i)).
Qed.

Lemma square_grid_map {A B : Type} (f : A -> B) (n : nat) (g : grid A) :
  square n g -> square n (grid_map f g).
Proof.
  intros [Hlen Hrows]. split.
  - unfold grid_map. now rewrite length_map.
  - unfold grid_map. apply Forall_map.
    eapply Forall_impl; [|exact Hrows].
    intros row Hrow. now rewrite length_map.
Qed.

Lemma at2_grid_map {A B : Type} (f : A -> B) (n : nat) (g : grid A)
  (i j : nat) (d : A) (d' : B) :
  square n g -> (i < n)%nat -> (j < n)%nat ->
  at2 d' (grid_map f g) i j = f (at2 d g i j).
Proof.
  intros Hsq Hi Hj. unfold at2, grid_map.
  change (@nil B) with (map f []).
  rewrite (map_nth (map f)).
  assert (Hrow : length (nth i g []) = n) by now apply square_row.
  rewrite (nth_indep _ d' (f d)) by (rewrite length_map; lia).
  apply map_nth.
Qed.

Lemma square_grid_map2 {A B C : Type} (f : A -> B -> C) (n : nat)
  (g : grid A) (h : grid B) :
  square n g -> square n h -> square n (grid_map2 f g h).
Proof.
  intros [Hg Hgr] [Hh Hhr]. split.
  - unfold grid_map2. rewrite length_zip_with. lia.
  - unfold grid_map2, zip_with. apply Forall_map.
    apply Forall_forall. intros [r1 r2] Hin. simpl.
    rewrite Forall_forall in Hgr, Hhr.
    rewrite length_map, length_combine.
    rewrite (Hgr r1), (Hhr r2); try lia.
    + eapply in_combine_r; eauto.
    + eapply in_combine_l; eauto.
Qed.

Lemma at2_grid_map2 {A B C : Type} (f : A -> B -> C) (n : nat)
  (g : grid A) (h : grid B) (i j : nat) (dx : A) (dy : B) (dz : C) :
  square n g -> square n h -> (i < n)%nat -> (j < n)%nat ->
  at2 dz (grid_map2 f g h) i j = f (at2 dx g i j) (at2 dy h i j).
Proof.
  intros Hg Hh Hi Hj. unfold at2, grid_map2.
  assert (Hgi : length (nth i g []) = n) by now apply square_row.
  assert (Hhi : length (nth i h []) = n) by now apply square_row.
  destruct Hg as [Hg _], Hh as [Hh _].
  rewrite (nth_zip_with (zip_with f) g h i [] []) by lia.
  apply nth_zip_with; lia.
Qed.

Lemma square_transpose {A : Type} (d : A) (n : nat) (g : grid A) :
  square n g -> square n (np_transpose d g).
Proof.
  intros [Hlen Hrows]. unfold np_transpose.
  destruct g as [|row g].
  - simpl in *. subst n. split; simpl; auto.
  - assert (Hrow : length row = n) by now inversion Hrows.
    rewrite Hrow. split.
    + now rewrite length_map, length_seq.
    + apply Forall_forall. intros r Hin.
      apply in_map_iff in Hin. destruct Hin as [j [<- _]].
      now rewrite length_map.
Qed.

Lemma at2_transpose {A : Type} (d : A) (n : nat) (g : grid A) (i j : nat) :
  square n g -> (i < n)%nat -> (j < n)%nat ->
  at2 d (np_transpose d g) i j = at2 d g j i.
Proof.
  intros [Hlen Hrows] Hi Hj. unfold np_transpose, at2.
  destruct g as [|row g]; [simpl in Hlen; lia|].
  assert (Hrow : length row = n) by now inversion Hrows.
  rewrite Hrow.
  rewrite (nth_map_seq (fun j => map (fun r => nth j r d) (row :: g))) by lia.
  rewrite (nth_indep _ d (nth i [] d)) by (rewrite length_map; lia).
  now rewrite (map_nth (fun r => nth i r d)).
Qed.

(** [np.resize(np.arange(M + 1), (M + 1, M + 1))]: every row is
    [0, 1, ..., M]. *)
Lemma np_resize_arange (M : Z) :
  (0 <= M)%Z ->
  exists mu,
    np_resize (np_arange (M + 1)) (M + 1) (M + 1) = Ok mu /\
    square (Z.to_nat M + 1) mu /\
    forall i j, (i <= Z.to_nat M)%nat -> (j <= Z.to_nat M)%nat ->
      at2 0%Z mu i j = Z.of_nat j.
Proof.
  intros HM. unfold np_resize.
  replace ((M + 1 <? 0)%Z || (M + 1 <? 0)%Z)%bool with false
    by (symmetry; apply orb_false_iff; split; apply Z.ltb_ge; lia).
  replace (Z.to_nat (M + 1)) with (Z.to_nat M + 1)%nat by lia.
  set (n := Z.to_nat M).
  assert (Hlen : length (np_arange (M + 1)) = (n + 1)%nat).
  { unfold np_arange. rewrite length_map, length_seq. lia. }
  assert (Hnth : forall j, (j <= n)%nat ->
                   nth j (np_arange (M + 1)) 0%Z = Z.of_nat j).
  { intros j Hj. unfold np_arange.
    replace (Z.to_nat (M + 1)) with (n + 1)%nat by lia.
    apply (nth_map_seq Z.of_nat). lia. }
  destruct (np_arange (M + 1)) as [|z a] eqn:Ea.
  - simpl in Hlen. lia.
  - eexists. split; [reflexivity|]. split.
    + apply (square_tabulate
               (fun i j => nth ((i * (n + 1) + j) mod length (z :: a))
                             (z :: a) 0%Z)).
    + intros i j Hi Hj.
      rewrite (at2_tabulate
                 (fun i j => nth ((i * (n + 1) + j) mod length (z :: a))
                               (z :: a) 0%Z)) by lia.
      rewrite Hlen.
      replace ((i * (n + 1) + j) mod (n + 1))%nat with j.
      * now apply Hnth.
      * rewrite Nat.add_comm, Nat.Div0.mod_add.
        symmetry. apply Nat.mod_small. lia.
Qed.

Lemma index_levels_spec (S0 u d : R) (n : nat) (mu : grid Z) :
  square (n + 1) mu ->
  (forall i j, (i <= n)%nat -> (j <= n)%nat ->
     at2 0%Z mu i j = Z.of_nat j) ->
  square (n + 1) (index_levels S0 u d mu) /\
  forall i t, (i <= n)%nat -> (t <= n)%nat ->
    cell (index_levels S0 u d mu) i t = index_level S0 u d i t.
Proof.
  intros Hsq Hmu. unfold index_levels.
  pose proof (square_transpose 0%Z _ _ Hsq) as Hmd.
  pose proof (square_grid_map2 Z.sub _ _ _ Hsq Hmd) as Hsub.
  split.
  - apply square_grid_map2; repeat apply square_grid_map; auto.
  - intros i t Hi Ht. rewrite cell_at2.
    rewrite (at2_grid_map2 Rmult (n + 1) _ _ i t 0 0); try lia;
      repeat apply square_grid_map; auto.
    rewrite (at2_grid_map (Rmult S0) (n + 1) _ i t 0); try lia;
      repeat apply square_grid_map; auto.
    rewrite (at2_grid_map (powerRZ u) (n + 1) _ i t 0%Z); try lia; auto.
    rewrite (at2_grid_map (powerRZ d) (n + 1) _ i t 0%Z); try lia; auto.
    rewrite (at2_grid_map2 Z.sub (n + 1) _ _ i t 0%Z 0%Z); try lia; auto.
    rewrite (at2_transpose 0%Z (n + 1)) by (auto; lia).
    rewrite !Hmu by lia.
    reflexivity.
Qed.

Lemma inner_values_spec (otype : string) (K : R) (n : nat) (S : grid R) :
  square n S ->
  square n (inner_values otype K S) /\
  forall i t, (i < n)%nat -> (t < n)%nat ->
    cell (inner_values otype K S) i t = inner_value otype K (cell S i t).
Proof.
  intros Hsq. unfold inner_values, inner_value.
  destruct (String.eqb otype "call"); split;
    try (now apply square_grid_map);
    intros i t Hi Ht; rewrite !cell_at2;
    now rewrite (at2_grid_map _ n _ i t 0 0).
Qed.

(** The returned value depends on the initial contents of the cells
    [(i, t)] with [i <= t <= M] only. *)
Lemma lattice_value_ext (q df : R) (M : nat) (V0 V0' : nat -> nat -> R) :
  (forall i t, (i <= t)%nat -> (t <= M)%nat -> V0 i t = V0' i t) ->
  forall k i, (k <= M)%nat -> (i <= M - k)%nat ->
    lattice_value q df M V0 k i = lattice_value q df M V0' k i.
Proof.
  intros Hext. induction k as [|k IH]; intros i Hk Hi; simpl.
  - apply Hext; lia.
  - destruct (i <? S k)%nat.
    + rewrite !IH by lia. reflexivity.
    + apply Hext; lia.
Qed.

(** ** The scalar stage *)

Lemma py_truediv_ok (a b : R) : b <> 0 -> py_truediv a b = Ok (a / b).
Proof. intros Hb. unfold py_truediv. now destruct (Req_dec_T b 0). Qed.

Lemma py_truediv_zero (a b : R) :
  b = 0 -> py_truediv a b = Raise ZeroDivisionError.
Proof. intros Hb. unfold py_truediv. now destruct (Req_dec_T b 0). Qed.

Lemma math_sqrt_ok (x : R) : 0 <= x -> math_sqrt x = Ok (sqrt x).
Proof. intros Hx. unfold math_sqrt. destruct (Rlt_dec x 0); auto. lra. Qed.

Lemma math_sqrt_neg (x : R) : x < 0 -> math_sqrt x = Raise ValueError.
Proof. intros Hx. unfold math_sqrt. destruct (Rlt_dec x 0); auto. lra. Qed.

(** [u = d] exactly when the exponent [sigma * sqrt dt] is zero. *)
Lemma up_minus_down_zero (x : R) : exp x - 1 / exp x = 0 <-> x = 0.
Proof.
  pose proof (exp_pos x) as Hpos.
  split.
  - intros H.
    assert (Hsq : exp x * exp x = 1).
    { apply Rminus_diag_uniq in H. rewrite H at 1.
      field. lra. }
    rewrite <- exp_plus, <- exp_0 in Hsq.
    apply exp_inv in Hsq. lra.
  - intros ->. rewrite exp_0. field.
Qed.

Lemma dt_pos (T : R) (M : Z) : (1 <= M)%Z -> 0 < T -> 0 < dt_of T M.
Proof.
  intros HM HT. unfold dt_of.
  apply Rdiv_lt_0_compat; auto. apply IZR_lt. lia.
Qed.

Lemma u_minus_d_nonzero (T sigma : R) (M : Z) :
  0 < dt_of T M -> sigma <> 0 ->
  u_of T sigma M - d_of T sigma M <> 0.
Proof.
  intros Hdt Hs H. unfold d_of, u_of in H.
  apply (proj1 (up_minus_down_zero _)) in H.
  apply Rmult_integral in H. destruct H as [H|H]; [auto|].
  pose proof (sqrt_lt_R0 _ Hdt). lra.
Qed.

(** Once [dt > 0] and [sigma <> 0], the four scalar statements raise
    nothing and the function continues with the array stage. *)
Lemma CRR_scalar_stage (S0 K T r sigma : R) (otype : string) (M : Z) :
  M <> 0%Z -> 0 < dt_of T M -> sigma <> 0 ->
  CRR_option_value S0 K T r sigma otype M =
    (mu <- np_resize (np_arange (M + 1)) (M + 1) (M + 1) ;;
     grid_get
       (backwards_valuation (q_of T r sigma M) (df_of T r M) (Z.to_nat M)
          (inner_values otype K
             (index_levels S0 (u_of T sigma M) (d_of T sigma M) mu)))
       0 0).
Proof.
  intros HM Hdt Hs. unfold CRR_option_value.
  rewrite py_truediv_ok by (apply not_0_IZR; lia). simpl bind.
  fold (dt_of T M).
  rewrite math_sqrt_ok by lra. simpl bind.
  fold (u_of T sigma M).
  rewrite py_truediv_ok by (pose proof (exp_pos (sigma * sqrt (dt_of T M)));
                            unfold u_of; lra).
  simpl bind. fold (d_of T sigma M).
  rewrite py_truediv_ok by now apply u_minus_d_nonzero.
  reflexivity.
Qed.

(** ** The value returned on inputs that raise no exception *)

(** For [M >= 1], [T > 0] and [sigma <> 0] the function returns the
    content that the loop leaves in cell [(0, 0)]. *)
Lemma CRR_option_value_eval (S0 K T r sigma : R) (otype : string) (M : Z) :
  (1 <= M)%Z -> 0 < T -> sigma <> 0 ->
  CRR_option_value S0 K T r sigma otype M =
    Ok (lattice_value (q_of T r sigma M) (df_of T r M) (Z.to_nat M)
          (initial_value S0 K (u_of T sigma M) (d_of T sigma M) otype)
          (Z.to_nat M) 0).
Proof.
  intros HM HT Hs.
  rewrite CRR_scalar_stage by (auto using dt_pos; lia).
  destruct (np_resize_arange M) as [mu [Hmu [Hsq Hcells]]]; [lia|].
  rewrite Hmu. simpl bind.
  set (n := Z.to_nat M) in *.
  destruct (index_levels_spec S0 (u_of T sigma M) (d_of T sigma M) n mu)
    as [HsqS HcellS]; auto.
  destruct (inner_values_spec otype K (n + 1) _ HsqS) as [HsqV HcellV].
  rewrite backwards_valuation_cell00 by auto.
  f_equal. apply lattice_value_ext; try lia.
  intros i t Hit Ht. unfold initial_value.
  rewrite HcellV by lia. now rewrite HcellS by lia.
Qed.

(** ** The inputs on which an exception is raised *)

(** [M = 0]: the first statement, [dt = T / M], divides by zero. *)
Lemma CRR_raise_zero_steps (S0 K T r sigma : R) (otype : string) :
  CRR_option_value S0 K T r sigma otype 0 = Raise ZeroDivisionError.
Proof.
  unfold CRR_option_value. now rewrite py_truediv_zero.
Qed.

(** [dt < 0]: [math.sqrt(dt)] raises. *)
Lemma CRR_raise_negative_dt (S0 K T r sigma : R) (otype : string) (M : Z) :
  M <> 0%Z -> dt_of T M < 0 ->
  CRR_option_value S0 K T r sigma otype M = Raise ValueError.
Proof.
  intros HM Hdt. unfold CRR_option_value.
  rewrite py_truediv_ok by (apply not_0_IZR; lia). simpl bind.
  fold (dt_of T M). now rewrite math_sqrt_neg.
Qed.

(** [sigma * sqrt dt = 0]: [u = d = 1] and the division by [u - d]
    raises. *)
Lemma CRR_raise_u_equals_d (S0 K T r sigma : R) (otype : string) (M : Z) :
  M <> 0%Z -> 0 <= dt_of T M -> sigma * sqrt (dt_of T M) = 0 ->
  CRR_option_value S0 K T r sigma otype M = Raise ZeroDivisionError.
Proof.
  intros HM Hdt Hx. unfold CRR_option_value.
  rewrite py_truediv_ok by (apply not_0_IZR; lia). simpl bind.
  fold (dt_of T M).
  rewrite math_sqrt_ok by lra. simpl bind.
  rewrite Hx, exp_0.
  rewrite py_truediv_ok by lra. simpl bind.
  rewrite py_truediv_zero by lra. reflexivity.
Qed.

(** [M < -1] with [dt > 0]: the shape [(M + 1, M + 1)] is negative and
    [np.resize] raises. *)
Lemma CRR_raise_negative_shape (S0 K T r sigma : R) (otype : string)
  (M : Z) :
  (M < -1)%Z -> 0 < dt_of T M -> sigma <> 0 ->
  CRR_option_value S0 K T r sigma otype M = Raise ValueError.
Proof.
  intros HM Hdt Hs.
  rewrite CRR_scalar_stage by (auto; lia).
  unfold np_resize.
  replace (M + 1 <? 0)%Z with true by (symmetry; apply Z.ltb_lt; lia).
  reflexivity.
Qed.

(** [M = -1] with [dt > 0]: all arrays are empty, the loop does not run
    and [V[0, 0]] is out of bounds. *)
Lemma CRR_raise_empty_grid (S0 K T r sigma : R) (otype : string) :
  0 < dt_of T (-1) -> sigma <> 0 ->
  CRR_option_value S0 K T r sigma otype (-1) = Raise IndexError.
Proof.
  intros Hdt Hs.
  rewrite CRR_scalar_stage by (auto; lia).
  cbn. unfold inner_values. now destruct (String.eqb otype "call").
Qed.

(** In this model (real arithmetic, no overflow) a price is returned
    when [M >= 1], [T > 0] and [sigma <> 0]; otherwise one of the three
    exceptions is raised, whatever [S0], [K], [r] and [otype]. *)
Lemma CRR_option_value_cases (S0 K T r sigma : R) (otype : string) (M : Z) :
  ((1 <= M)%Z /\ 0 < T /\ sigma <> 0 /\
   is_ok (CRR_option_value S0 K T r sigma otype M))
  \/
  (~ ((1 <= M)%Z /\ 0 < T /\ sigma <> 0) /\
   exists e, forall S0' K' r' otype',
     CRR_option_value S0' K' T r' sigma otype' M = Raise e).
Proof.
  destruct (Z.eq_dec M 0) as [->|HM].
  { right. split; [lia|]. exists ZeroDivisionError. intros.
    apply CRR_raise_zero_steps. }
  assert (HMR : IZR M <> 0) by (apply not_0_IZR; lia).
  destruct (Rlt_dec (dt_of T M) 0) as [Hneg|Hnn].
  { right. split.
    - intros [H1 [H2 _]]. pose proof (dt_pos T M H1 H2). lra.
    - exists ValueError. intros. now apply CRR_raise_negative_dt. }
  apply Rnot_lt_le in Hnn.
  destruct (Req_dec_T (sigma * sqrt (dt_of T M)) 0) as [Hx|Hx].
  { right. split.
    - intros [H1 [H2 H3]]. pose proof (dt_pos T M H1 H2) as Hdt.
      pose proof (sqrt_lt_R0 _ Hdt).
      apply Rmult_integral in Hx. destruct Hx; [auto|lra].
    - exists ZeroDivisionError. intros. now apply CRR_raise_u_equals_d. }
  assert (Hs : sigma <> 0) by (intros ->; apply Hx; ring).
  assert (Hdt : 0 < dt_of T M).
  { destruct Hnn as [|Heq]; auto.
    exfalso. apply Hx. rewrite <- Heq, sqrt_0. ring. }
  destruct (Z_lt_le_dec M (-1)) as [Hlt|Hge].
  { right. split; [lia|]. exists ValueError. intros.
    now apply CRR_raise_negative_shape. }
  destruct (Z.eq_dec M (-1)) as [->|Hne].
  { right. split; [lia|]. exists IndexError. intros.
    now apply CRR_raise_empty_grid. }
  left. assert (H1 : (1 <= M)%Z) by lia.
  assert (HT : 0 < T).
  { replace T with (dt_of T M * IZR M) by (unfold dt_of; now field).
    apply Rmult_lt_0_compat; auto. apply IZR_lt. lia. }
  repeat split; auto.
  now rewrite CRR_option_value_eval.
Qed.

(** ** Rational bounds on [exp]

    [exp] is the sum of its power series; for [0 <= x <= 1/2] the partial
    sums bound it from below, and a geometric tail bounds it from above. *)

Lemma exp_term_series (x : R) (k : nat) :
  exp_term x k = / INR (fact k) * x ^ k.
Proof.
  induction k as [|k IH].
  - simpl. field.
  - cbn [exp_term]. rewrite IH, fact_simpl, mult_INR.
    pose proof (INR_fact_neq_0 k).
    pose proof (not_0_INR (S k) (Nat.neq_succ_0 k)).
    simpl pow. field. split; auto.
Qed.

Lemma exp_partial_series (x : R) (n : nat) :
  exp_partial x n = sum_f_R0 (fun i => / INR (fact i) * x ^ i) n.
Proof.
  induction n as [|n IH].
  - simpl. field.
  - cbn [exp_partial sum_f_R0]. now rewrite IH, exp_term_series.
Qed.

Lemma exp_term_nonneg (x : R) (k : nat) : 0 <= x -> 0 <= exp_term x k.
Proof.
  intros Hx. induction k as [|k IH]; cbn [exp_term]; [lra|].
  pose proof (lt_0_INR (S k) (Nat.lt_0_succ k)).
  apply Rmult_le_pos; [apply Rmult_le_pos; auto|].
  left. now apply Rinv_0_lt_compat.
Qed.

Lemma exp_partial_mono (x : R) (n m : nat) :
  0 <= x -> (n <= m)%nat -> exp_partial x n <= exp_partial x m.
Proof.
  intros Hx Hnm. induction Hnm as [|m Hnm IH]; [lra|].
  cbn [exp_partial]. pose proof (exp_term_nonneg x (S m) Hx). lra.
Qed.

Lemma exp_partial_limit (x : R) (eps : R) :
  0 < eps -> exists N, forall n, (N <= n)%nat ->
    Rabs (exp_partial x n - exp x) < eps.
Proof.
  intros Heps.
  pose proof (proj2_sig (exist_exp x)) as Hsum.
  destruct (Hsum eps Heps) as [N HN].
  exists N. intros n Hn. rewrite exp_partial_series.
  apply (HN n Hn).
Qed.

Lemma exp_lower (x : R) (n : nat) : 0 <= x -> exp_partial x n <= exp x.
Proof.
  intros Hx.
  destruct (Rle_lt_dec (exp_partial x n) (exp x)) as [|Hlt]; auto.
  destruct (exp_partial_limit x (exp_partial x n - exp x)) as [N HN];
    [lra|].
  specialize (HN (Nat.max N n) (Nat.le_max_l _ _)).
  pose proof (exp_partial_mono x n (Nat.max N n) Hx (Nat.le_max_r _ _)).
  apply Rabs_def2 in HN. lra.
Qed.

Lemma exp_term_half (x : R) (k : nat) :
  0 <= x <= 1 / 2 -> exp_term x (S k) <= exp_term x k / 2.
Proof.
  intros Hx. cbn [exp_term].
  pose proof (exp_term_nonneg x k (proj1 Hx)) as Ht.
  assert (Hk : 1 <= INR (S k)) by (apply (le_INR 1); lia).
  assert (Hfrac : x / INR (S k) <= 1 / 2).
  { apply (Rmult_le_reg_r (INR (S k))); [lra|].
    unfold Rdiv. rewrite Rmult_assoc, Rinv_l by lra. nra. }
  unfold Rdiv in *. rewrite Rmult_assoc.
  apply Rmult_le_compat_l; auto. lra.
Qed.

Lemma exp_partial_tail (x : R) (n m : nat) :
  0 <= x <= 1 / 2 -> (n < m)%nat ->
  exp_partial x m + exp_term x m <= exp_partial x n + 2 * exp_term x (S n).
Proof.
  intros Hx Hnm. induction Hnm as [|m Hnm IH].
  - cbn [exp_partial]. lra.
  - cbn [exp_partial]. pose proof (exp_term_half x m Hx).
    change (exp_term x m * x / INR (S m)) with (exp_term x (S m)). lra.
Qed.

Lemma exp_upper (x : R) (n : nat) :
  0 <= x <= 1 / 2 -> exp x <= exp_partial x n + 2 * exp_term x (S n).
Proof.
  intros Hx.
  set (B := exp_partial x n + 2 * exp_term x (S n)).
  destruct (Rle_lt_dec (exp x) B) as [|Hlt]; auto.
  destruct (exp_partial_limit x (exp x - B)) as [N HN]; [lra|].
  specialize (HN (Nat.max N (S n)) (Nat.le_max_l _ _)).
  assert (Hm : (n < Nat.max N (S n))%nat) by lia.
  pose proof (exp_partial_tail x n _ Hx Hm) as Htail.
  pose proof (exp_term_nonneg x (Nat.max N (S n)) (proj1 Hx)).
  apply Rabs_def2 in HN. fold B in Htail. lra.
Qed.


(** ** Interval arithmetic for the reference scenario *)

Lemma mult_bounds (x y xl xh yl yh : R) :
  xl <= x <= xh -> yl <= y <= yh -> 0 <= xl -> 0 <= yl ->
  xl * yl <= x * y <= xh * yh.
Proof.
  intros [Hx1 Hx2] [Hy1 Hy2] Hxl Hyl. split.
  - apply Rmult_le_compat; lra.
  - apply Rmult_le_compat; lra.
Qed.

(** One averaging step on intervals of non-negative numbers. *)
Lemma average_bounds (q df x y ql qh fl fh xl xh yl yh : R) :
  ql <= q <= qh -> fl <= df <= fh -> xl <= x <= xh -> yl <= y <= yh ->
  0 <= ql -> qh <= 1 -> 0 <= fl -> 0 <= xl -> 0 <= yl ->
  (ql * xl + (1 - qh) * yl) * fl
    <= (q * x + (1 - q) * y) * df
    <= (qh * xh + (1 - ql) * yh) * fh.
Proof.
  intros Hq Hf Hx Hy Hql Hqh Hfl Hxl Hyl.
  pose proof (mult_bounds q x ql qh xl xh Hq Hx Hql Hxl) as [A1 A2].
  assert (Hq' : 1 - qh <= 1 - q <= 1 - ql) by lra.
  pose proof (mult_bounds (1 - q) y (1 - qh) (1 - ql) yl yh
                Hq' Hy ltac:(lra) Hyl) as [B1 B2].
  assert (Hlo : 0 <= ql * xl + (1 - qh) * yl).
  { apply Rplus_le_le_0_compat; apply Rmult_le_pos; lra. }
  apply mult_bounds; auto; lra.
Qed.

Lemma lattice_value_step (q df : R) (M : nat) (V0 : nat -> nat -> R)
  (k i : nat) :
  (i < S k)%nat ->
  lattice_value q df M V0 (S k) i =
    (q * lattice_value q df M V0 k i
     + (1 - q) * lattice_value q df M V0 k (i + 1)) * df.
Proof.
  intros Hi. cbn [lattice_value].
  apply Nat.ltb_lt in Hi. now rewrite Hi.
Qed.

Lemma lattice_value_keep (q df : R) (M : nat) (V0 : nat -> nat -> R)
  (k i : nat) :
  (S k <= i)%nat ->
  lattice_value q df M V0 (S k) i = V0 i (M - S k)%nat.
Proof.
  intros Hi. cbn [lattice_value].
  apply Nat.ltb_ge in Hi. now rewrite Hi.
Qed.

Lemma spec_value_step (q df : R) (terminal : nat -> R) (k i : nat) :
  spec_value q df terminal (S k) i =
    df * (q * spec_value q df terminal k i
          + (1 - q) * spec_value q df terminal k (i + 1)).
Proof. reflexivity. Qed.

Lemma index_level_pow (S0 u d : R) (i t : nat) :
  (i <= t)%nat -> index_level S0 u d i t = S0 * u ^ (t - i) * d ^ i.
Proof.
  intros Hit. unfold index_level.
  now rewrite <- Nat2Z.inj_sub, <- !pow_powerRZ by lia.
Qed.

Lemma initial_value_call (S0 K u d : R) (i t : nat) :
  (i <= t)%nat ->
  initial_value S0 K u d "call" i t = Rmax (S0 * u ^ (t - i) * d ^ i - K) 0.
Proof.
  intros Hit. unfold initial_value. now rewrite index_level_pow.
Qed.

Lemma initial_value_put (S0 K u d : R) (i t : nat) :
  (i <= t)%nat ->
  initial_value S0 K u d "put" i t = Rmax (K - S0 * u ^ (t - i) * d ^ i) 0.
Proof.
  intros Hit. unfold initial_value. now rewrite index_level_pow.
Qed.

(** [exp] at the three arguments of the reference scenario. *)
Lemma exp_one_tenth :
  1.105170918075 <= exp (1 / 10) <= 1.105170918077.
Proof.
  split.
  - eapply Rle_trans; [|apply (exp_lower (1 / 10) 8); lra].
    cbn [exp_partial exp_term INR]. lra.
  - eapply Rle_trans; [apply (exp_upper (1 / 10) 8); lra|].
    cbn [exp_partial exp_term INR]. lra.
Qed.

Lemma exp_one_eightieth :
  1.012578451540 <= exp (1 / 80) <= 1.012578451542.
Proof.
  split.
  - eapply Rle_trans; [|apply (exp_lower (1 / 80) 6); lra].
    cbn [exp_partial exp_term INR]. lra.
  - eapply Rle_trans; [apply (exp_upper (1 / 80) 6); lra|].
    cbn [exp_partial exp_term INR]. lra.
Qed.

Lemma exp_one_twentieth :
  1.051271096375 <= exp (1 / 20) <= 1.051271096377.
Proof.
  split.
  - eapply Rle_trans; [|apply (exp_lower (1 / 20) 7); lra].
    cbn [exp_partial exp_term INR]. lra.
  - eapply Rle_trans; [apply (exp_upper (1 / 20) 7); lra|].
    cbn [exp_partial exp_term INR]. lra.
Qed.

(** The lattice of the reference scenario: [S0 = K = 100], four steps,
    with the four scalars known to twelve decimals. *)
Section ReferenceLattice.
Variables u d q df : R.
Hypothesis Hu : 1.105170918075 <= u <= 1.105170918077.
Hypothesis Hd : 0.904837418034 <= d <= 0.904837418037.
Hypothesis Hq : 0.53780837193 <= q <= 0.53780837198.
Hypothesis Hdf : 0.987577800492 <= df <= 0.987577800495.

(** Bounds on a power from bounds on the previous one. *)
Ltac power_step Hx Hp :=
  match goal with
  | |- _ <= ?x ^ S ?n <= _ => change (x ^ S n) with (x * x ^ n)
  end;
  pose proof (mult_bounds _ _ _ _ _ _ Hx Hp ltac:(lra) ltac:(lra));
  lra.

(** Bounds on an index level [100 * u^a * d^b]. *)
Ltac level_step Hup Hdp :=
  pose proof (mult_bounds _ _ _ _ _ _ Hup Hdp ltac:(lra) ltac:(lra));
  lra.

(** Bounds on an inner value [max(x, 0)] from bounds on the level. *)
Ltac inner_step Hlevel :=
  pose proof Hlevel;
  match goal with
  | |- _ <= Rmax ?x 0 <= _ =>
      pose proof (Rmax_l x 0); pose proof (Rmax_r x 0)
  end;
  split; [lra | apply Rmax_lub; lra].

(** Bounds on a discounted average from bounds on its two successors. *)
Ltac average_step Hx Hy :=
  pose proof (average_bounds _ _ _ _ _ _ _ _ _ _ _ _ Hq Hdf Hx Hy
                ltac:(lra) ltac:(lra) ltac:(lra) ltac:(lra) ltac:(lra));
  lra.

Lemma u_pow_0 : 1 <= u ^ 0 <= 1.
Proof. simpl. lra. Qed.

Lemma u_pow_1 : 1.105170918075 <= u ^ 1 <= 1.105170918077.
Proof. simpl. lra. Qed.

Lemma u_pow_2 : 1.221402758158 <= u ^ 2 <= 1.221402758164.
Proof. power_step Hu u_pow_1. Qed.

Lemma u_pow_3 : 1.349858807572 <= u ^ 3 <= 1.349858807582.
Proof. power_step Hu u_pow_2. Qed.

Lemma u_pow_4 : 1.491824697635 <= u ^ 4 <= 1.49182469765.
Proof. power_step Hu u_pow_3. Qed.

Lemma d_pow_0 : 1 <= d ^ 0 <= 1.
Proof. simpl. lra. Qed.

Lemma d_pow_1 : 0.904837418034 <= d ^ 1 <= 0.904837418037.
Proof. simpl. lra. Qed.

Lemma d_pow_2 : 0.818730753074 <= d ^ 2 <= 0.81873075308.
Proof. power_step Hd d_pow_1. Qed.

Lemma d_pow_3 : 0.740818220676 <= d ^ 3 <= 0.740818220685.
Proof. power_step Hd d_pow_2. Qed.

Lemma d_pow_4 : 0.670320046029 <= d ^ 4 <= 0.67032004604.
Proof. power_step Hd d_pow_3. Qed.

Lemma level_0_4 : 149.182469763 <= 100 * u ^ 4 * d ^ 0 <= 149.182469765.
Proof. level_step u_pow_4 d_pow_0. Qed.

Lemma code_call_initial_0_4 :
  49.182469763 <= initial_value 100 100 u d "call" 0 4 <= 49.182469765.
Proof.
  rewrite initial_value_call by lia. cbn [Nat.sub].
  inner_step level_0_4.
Qed.

Lemma code_call_0_0 :
  49.182469763
    <= lattice_value q df 4 (initial_value 100 100 u d "call") 0 0
    <= 49.182469765.
Proof.
  cbn [lattice_value].
  exact code_call_initial_0_4.
Qed.

Lemma level_1_4 : 122.140275815 <= 100 * u ^ 3 * d ^ 1 <= 122.140275817.
Proof. level_step u_pow_3 d_pow_1. Qed.

Lemma code_call_initial_1_4 :
  22.140275815 <= initial_value 100 100 u d "call" 1 4 <= 22.140275817.
Proof.
  rewrite initial_value_call by lia. cbn [Nat.sub].
  inner_step level_1_4.
Qed.

Lemma code_call_0_1 :
  22.140275815
    <= lattice_value q df 4 (initial_value 100 100 u d "call") 0 1
    <= 22.140275817.
Proof.
  cbn [lattice_value].
  exact code_call_initial_1_4.
Qed.

Lemma code_call_1_0 :
  36.228100705
    <= lattice_value q df 4 (initial_value 100 100 u d "call") 1 0
    <= 36.228100711.
Proof.
  rewrite lattice_value_step by lia. cbn [Nat.add].
  average_step code_call_0_0 code_call_0_1.
Qed.

Lemma level_1_3 : 110.517091807 <= 100 * u ^ 2 * d ^ 1 <= 110.517091809.
Proof. level_step u_pow_2 d_pow_1. Qed.

Lemma code_call_initial_1_3 :
  10.517091807 <= initial_value 100 100 u d "call" 1 3 <= 10.517091809.
Proof.
  rewrite initial_value_call by lia. cbn [Nat.sub].
  inner_step level_1_3.
Qed.

Lemma code_call_1_1 :
  10.517091807
    <= lattice_value q df 4 (initial_value 100 100 u d "call") 1 1
    <= 10.517091809.
Proof.
  rewrite lattice_value_keep by lia. cbn [Nat.sub].
  exact code_call_initial_1_3.
Qed.

Lemma code_call_2_0 :
  24.042273075
    <= lattice_value q df 4 (initial_value 100 100 u d "call") 2 0
    <= 24.042273083.
Proof.
  rewrite lattice_value_step by lia. cbn [Nat.add].
  average_step code_call_1_0 code_call_1_1.
Qed.

Lemma level_2_3 : 90.483741803 <= 100 * u ^ 1 * d ^ 2 <= 90.483741804.
Proof. level_step u_pow_1 d_pow_2. Qed.

Lemma code_call_initial_2_3 :
  0 <= initial_value 100 100 u d "call" 2 3 <= 0.
Proof.
  rewrite initial_value_call by lia. cbn [Nat.sub].
  inner_step level_2_3.
Qed.

Lemma code_call_1_2 :
  0
    <= lattice_value q df 4 (initial_value 100 100 u d "call") 1 2
    <= 0.
Proof.
  rewrite lattice_value_keep by lia. cbn [Nat.sub].
  exact code_call_initial_2_3.
Qed.

Lemma code_call_2_1 :
  5.585917825
    <= lattice_value q df 4 (initial_value 100 100 u d "call") 2 1
    <= 5.585917828.
Proof.
  rewrite lattice_value_step by lia. cbn [Nat.add].
  average_step code_call_1_1 code_call_1_2.
Qed.

Lemma code_call_3_0 :
  15.319208274
    <= lattice_value q df 4 (initial_value 100 100 u d "call") 3 0
    <= 15.319208282.
Proof.
  rewrite lattice_value_step by lia. cbn [Nat.add].
  average_step code_call_2_0 code_call_2_1.
Qed.

Lemma level_2_2 : 81.873075307 <= 100 * u ^ 0 * d ^ 2 <= 81.873075308.
Proof. level_step u_pow_0 d_pow_2. Qed.

Lemma code_call_initial_2_2 :
  0 <= initial_value 100 100 u d "call" 2 2 <= 0.
Proof.
  rewrite initial_value_call by lia. cbn [Nat.sub].
  inner_step level_2_2.
Qed.

Lemma code_call_2_2 :
  0
    <= lattice_value q df 4 (initial_value 100 100 u d "call") 2 2
    <= 0.
Proof.
  rewrite lattice_value_keep by lia. cbn [Nat.sub].
  exact code_call_initial_2_2.
Qed.

Lemma code_call_3_1 :
  2.966835178
    <= lattice_value q df 4 (initial_value 100 100 u d "call") 3 1
    <= 2.966835181.
Proof.
  rewrite lattice_value_step by lia. cbn [Nat.add].
  average_step code_call_2_1 code_call_2_2.
Qed.

Lemma code_call_4_0 :
  9.490666947
    <= lattice_value q df 4 (initial_value 100 100 u d "call") 4 0
    <= 9.490666955.
Proof.
  rewrite lattice_value_step by lia. cbn [Nat.add].
  average_step code_call_3_0 code_call_3_1.
Qed.

Lemma code_put_initial_0_4 :
  0 <= initial_value 100 100 u d "put" 0 4 <= 0.
Proof.
  rewrite initial_value_put by lia. cbn [Nat.sub].
  inner_step level_0_4.
Qed.

Lemma code_put_0_0 :
  0
    <= lattice_value q df 4 (initial_value 100 100 u d "put") 0 0
    <= 0.
Proof.
  cbn [lattice_value].
  exact code_put_initial_0_4.
Qed.

Lemma code_put_initial_1_4 :
  0 <= initial_value 100 100 u d "put" 1 4 <= 0.
Proof.
  rewrite initial_value_put by lia. cbn [Nat.sub].
  inner_step level_1_4.
Qed.

Lemma code_put_0_1 :
  0
    <= lattice_value q df 4 (initial_value 100 100 u d "put") 0 1
    <= 0.
Proof.
  cbn [lattice_value].
  exact code_put_initial_1_4.
Qed.

Lemma code_put_1_0 :
  0
    <= lattice_value q df 4 (initial_value 100 100 u d "put") 1 0
    <= 0.
Proof.
  rewrite lattice_value_step by lia. cbn [Nat.add].
  average_step code_put_0_0 code_put_0_1.
Qed.

Lemma code_put_initial_1_3 :
  0 <= initial_value 100 100 u d "put" 1 3 <= 0.
Proof.
  rewrite initial_value_put by lia. cbn [Nat.sub].
  inner_step level_1_3.
Qed.

Lemma code_put_1_1 :
  0
    <= lattice_value q df 4 (initial_value 100 100 u d "put") 1 1
    <= 0.
Proof.
  rewrite lattice_value_keep by lia. cbn [Nat.sub].
  exact code_put_initial_1_3.
Qed.

Lemma code_put_2_0 :
  0
    <= lattice_value q df 4 (initial_value 100 100 u d "put") 2 0
    <= 0.
Proof.
  rewrite lattice_value_step by lia. cbn [Nat.add].
  average_step code_put_1_0 code_put_1_1.
Qed.

Lemma code_put_initial_2_3 :
  9.516258196 <= initial_value 100 100 u d "put" 2 3 <= 9.516258197.
Proof.
  rewrite initial_value_put by lia. cbn [Nat.sub].
  inner_step level_2_3.
Qed.

Lemma code_put_1_2 :
  9.516258196
    <= lattice_value q df 4 (initial_value 100 100 u d "put") 1 2
    <= 9.516258197.
Proof.
  rewrite lattice_value_keep by lia. cbn [Nat.sub].
  exact code_put_initial_2_3.
Qed.

Lemma code_put_2_1 :
  4.343697875
    <= lattice_value q df 4 (initial_value 100 100 u d "put") 2 1
    <= 4.343697876.
Proof.
  rewrite lattice_value_step by lia. cbn [Nat.add].
  average_step code_put_1_1 code_put_1_2.
Qed.

Lemma code_put_3_0 :
  1.982681726
    <= lattice_value q df 4 (initial_value 100 100 u d "put") 3 0
    <= 1.982681728.
Proof.
  rewrite lattice_value_step by lia. cbn [Nat.add].
  average_step code_put_2_0 code_put_2_1.
Qed.

Lemma code_put_initial_2_2 :
  18.126924692 <= initial_value 100 100 u d "put" 2 2 <= 18.126924693.
Proof.
  rewrite initial_value_put by lia. cbn [Nat.sub].
  inner_step level_2_2.
Qed.

Lemma code_put_2_2 :
  18.126924692
    <= lattice_value q df 4 (initial_value 100 100 u d "put") 2 2
    <= 18.126924693.
Proof.
  rewrite lattice_value_keep by lia. cbn [Nat.sub].
  exact code_put_initial_2_2.
Qed.

Lemma code_put_3_1 :
  10.581096111
    <= lattice_value q df 4 (initial_value 100 100 u d "put") 3 1
    <= 10.581096115.
Proof.
  rewrite lattice_value_step by lia. cbn [Nat.add].
  average_step code_put_2_1 code_put_2_2.
Qed.

Lemma code_put_4_0 :
  5.882800349
    <= lattice_value q df 4 (initial_value 100 100 u d "put") 4 0
    <= 5.882800354.
Proof.
  rewrite lattice_value_step by lia. cbn [Nat.add].
  average_step code_put_3_0 code_put_3_1.
Qed.

Lemma spec_call_0_0 :
  49.182469763
    <= spec_value q df
         (fun i => spec_payoff Call 100 (spec_asset_price 100 u d i 4)) 0 0
    <= 49.182469765.
Proof.
  cbn [spec_value spec_payoff]. unfold spec_asset_price.
  cbn [Nat.sub].
  inner_step level_0_4.
Qed.

Lemma spec_call_0_1 :
  22.140275815
    <= spec_value q df
         (fun i => spec_payoff Call 100 (spec_asset_price 100 u d i 4)) 0 1
    <= 22.140275817.
Proof.
  cbn [spec_value spec_payoff]. unfold spec_asset_price.
  cbn [Nat.sub].
  inner_step level_1_4.
Qed.

Lemma spec_call_1_0 :
  36.228100705
    <= spec_value q df
         (fun i => spec_payoff Call 100 (spec_asset_price 100 u d i 4)) 1 0
    <= 36.228100711.
Proof.
  rewrite spec_value_step. cbn [Nat.add].
  average_step spec_call_0_0 spec_call_0_1.
Qed.

Lemma level_2_4 : 99.999999999 <= 100 * u ^ 2 * d ^ 2 <= 100.000000001.
Proof. level_step u_pow_2 d_pow_2. Qed.

Lemma spec_call_0_2 :
  0
    <= spec_value q df
         (fun i => spec_payoff Call 100 (spec_asset_price 100 u d i 4)) 0 2
    <= 0.000000001.
Proof.
  cbn [spec_value spec_payoff]. unfold spec_asset_price.
  cbn [Nat.sub].
  inner_step level_2_4.
Qed.

Lemma spec_call_1_1 :
  11.759311757
    <= spec_value q df
         (fun i => spec_payoff Call 100 (spec_asset_price 100 u d i 4)) 1 1
    <= 11.75931176.
Proof.
  rewrite spec_value_step. cbn [Nat.add].
  average_step spec_call_0_1 spec_call_0_2.
Qed.

Lemma spec_call_2_0 :
  24.609284609
    <= spec_value q df
         (fun i => spec_payoff Call 100 (spec_asset_price 100 u d i 4)) 2 0
    <= 24.609284617.
Proof.
  rewrite spec_value_step. cbn [Nat.add].
  average_step spec_call_1_0 spec_call_1_1.
Qed.

Lemma level_3_4 : 81.873075307 <= 100 * u ^ 1 * d ^ 3 <= 81.873075309.
Proof. level_step u_pow_1 d_pow_3. Qed.

Lemma spec_call_0_3 :
  0
    <= spec_value q df
         (fun i => spec_payoff Call 100 (spec_asset_price 100 u d i 4)) 0 3
    <= 0.
Proof.
  cbn [spec_value spec_payoff]. unfold spec_asset_price.
  cbn [Nat.sub].
  inner_step level_3_4.
Qed.

Lemma spec_call_1_2 :
  0
    <= spec_value q df
         (fun i => spec_payoff Call 100 (spec_asset_price 100 u d i 4)) 1 2
    <= 0.000000001.
Proof.
  rewrite spec_value_step. cbn [Nat.add].
  average_step spec_call_0_2 spec_call_0_3.
Qed.

Lemma spec_call_2_1 :
  6.245695137
    <= spec_value q df
         (fun i => spec_payoff Call 100 (spec_asset_price 100 u d i 4)) 2 1
    <= 6.245695141.
Proof.
  rewrite spec_value_step. cbn [Nat.add].
  average_step spec_call_1_1 spec_call_1_2.
Qed.

Lemma spec_call_3_0 :
  15.921519235
    <= spec_value q df
         (fun i => spec_payoff Call 100 (spec_asset_price 100 u d i 4)) 3 0
    <= 15.921519243.
Proof.
  rewrite spec_value_step. cbn [Nat.add].
  average_step spec_call_2_0 spec_call_2_1.
Qed.

Lemma level_4_4 : 67.032004602 <= 100 * u ^ 0 * d ^ 4 <= 67.032004604.
Proof. level_step u_pow_0 d_pow_4. Qed.

Lemma spec_call_0_4 :
  0
    <= spec_value q df
         (fun i => spec_payoff Call 100 (spec_asset_price 100 u d i 4)) 0 4
    <= 0.
Proof.
  cbn [spec_value spec_payoff]. unfold spec_asset_price.
  cbn [Nat.sub].
  inner_step level_4_4.
Qed.

Lemma spec_call_1_3 :
  0
    <= spec_value q df
         (fun i => spec_payoff Call 100 (spec_asset_price 100 u d i 4)) 1 3
    <= 0.
Proof.
  rewrite spec_value_step. cbn [Nat.add].
  average_step spec_call_0_3 spec_call_0_4.
Qed.

Lemma spec_call_2_2 :
  0
    <= spec_value q df
         (fun i => spec_payoff Call 100 (spec_asset_price 100 u d i 4)) 2 2
    <= 0.000000001.
Proof.
  rewrite spec_value_step. cbn [Nat.add].
  average_step spec_call_1_2 spec_call_1_3.
Qed.

Lemma spec_call_3_1 :
  3.317261124
    <= spec_value q df
         (fun i => spec_payoff Call 100 (spec_asset_price 100 u d i 4)) 3 1
    <= 3.317261128.
Proof.
  rewrite spec_value_step. cbn [Nat.add].
  average_step spec_call_2_1 spec_call_2_2.
Qed.

Lemma spec_call_4_0 :
  9.970522918
    <= spec_value q df
         (fun i => spec_payoff Call 100 (spec_asset_price 100 u d i 4)) 4 0
    <= 9.970522926.
Proof.
  rewrite spec_value_step. cbn [Nat.add].
  average_step spec_call_3_0 spec_call_3_1.
Qed.

End ReferenceLattice.

(** The scalars of the reference scenario
    ([S0 = K = 100], [T = 1], [r = 0.05], [sigma = 0.2], [M = 4]). *)
Lemma div_bounds (n dn lo hi : R) :
  0 < dn -> lo * dn <= n -> n <= hi * dn -> lo <= n / dn <= hi.
Proof.
  intros Hd Hlo Hhi. split.
  - apply (Rmult_le_reg_r dn); auto.
    unfold Rdiv. rewrite Rmult_assoc, Rinv_l by lra. lra.
  - apply (Rmult_le_reg_r dn); auto.
    unfold Rdiv. rewrite Rmult_assoc, Rinv_l by lra. lra.
Qed.

Lemma reference_u : u_of 1 0.2 4 = exp (1 / 10).
Proof.
  unfold u_of, dt_of. f_equal.
  replace (1 / 4) with ((1 / 2) * (1 / 2)) by lra.
  rewrite sqrt_square by lra. lra.
Qed.

Lemma reference_u_bounds :
  1.105170918075 <= u_of 1 0.2 4 <= 1.105170918077.
Proof. rewrite reference_u. exact exp_one_tenth. Qed.

Lemma reference_d_bounds :
  0.904837418034 <= d_of 1 0.2 4 <= 0.904837418037.
Proof.
  unfold d_of. pose proof reference_u_bounds.
  apply div_bounds; lra.
Qed.

Lemma reference_df_bounds :
  0.987577800492 <= df_of 1 0.05 4 <= 0.987577800495.
Proof.
  assert (E : df_of 1 0.05 4 = 1 / exp (1 / 80)).
  { replace (1 / exp (1 / 80)) with (exp (- (1 / 80)))
      by (rewrite exp_Ropp; field; pose proof (exp_pos (1 / 80)); lra).
    unfold df_of, dt_of. f_equal. lra. }
  rewrite E. pose proof exp_one_eightieth.
  apply div_bounds; lra.
Qed.

Lemma reference_q_bounds :
  0.53780837193 <= q_of 1 0.05 0.2 4 <= 0.53780837198.
Proof.
  unfold q_of.
  pose proof reference_u_bounds. pose proof reference_d_bounds.
  assert (E : exp (0.05 * dt_of 1 4) = exp (1 / 80))
    by (f_equal; unfold dt_of; lra).
  rewrite E. pose proof exp_one_eightieth.
  apply div_bounds; lra.
Qed.

(** What the function returns in the reference scenario, for a call and
    for a put, and what the specification's recurrence gives. *)
Lemma reference_call_value :
  exists v, CRR_option_value 100 100 1 0.05 0.2 "call" 4 = Ok v /\
            9.490666947 <= v <= 9.490666955.
Proof.
  rewrite CRR_option_value_eval by (lia || lra).
  eexists. split; [reflexivity|].
  apply code_call_4_0.
  - exact reference_u_bounds.
  - exact reference_d_bounds.
  - exact reference_q_bounds.
  - exact reference_df_bounds.
Qed.

Lemma reference_put_value :
  exists v, CRR_option_value 100 100 1 0.05 0.2 "put" 4 = Ok v /\
            5.882800349 <= v <= 5.882800354.
Proof.
  rewrite CRR_option_value_eval by (lia || lra).
  eexists. split; [reflexivity|].
  apply code_put_4_0.
  - exact reference_u_bounds.
  - exact reference_d_bounds.
  - exact reference_q_bounds.
  - exact reference_df_bounds.
Qed.

Lemma reference_spec_call_value :
  9.970522918 <= spec_price 100 100 1 0.05 0.2 Call 4 <= 9.970522926.
Proof.
  unfold spec_price. change (Z.to_nat 4) with 4%nat.
  apply spec_call_4_0.
  - exact reference_u_bounds.
  - exact reference_d_bounds.
  - exact reference_q_bounds.
  - exact reference_df_bounds.
Qed.

(** ** One step: the value and put-call parity *)

Lemma single_step_eval (S0 K T r sigma : R) (otype : string) :
  0 < T -> sigma <> 0 ->
  CRR_option_value S0 K T r sigma otype 1 =
    Ok ((q_of T r sigma 1
           * inner_value otype K (S0 * u_of T sigma 1)
         + (1 - q_of T r sigma 1)
           * inner_value otype K (S0 * d_of T sigma 1))
        * df_of T r 1).
Proof.
  intros HT Hs.
  rewrite CRR_option_value_eval by (auto; lia).
  change (Z.to_nat 1) with 1%nat.
  cbn [lattice_value Nat.ltb Nat.leb Nat.add Nat.sub].
  unfold initial_value. rewrite !index_level_pow by lia.
  cbn [Nat.sub pow]. do 3 f_equal; f_equal; f_equal; ring.
Qed.

Lemma rmax_call_minus_put (s K : R) :
  Rmax (s - K) 0 - Rmax (K - s) 0 = s - K.
Proof.
  destruct (Rle_dec K s).
  - rewrite Rmax_left, Rmax_right by lra. lra.
  - rewrite Rmax_right, Rmax_left by lra. lra.
Qed.

(** With one step, put-call parity holds exactly. *)
Lemma single_step_parity (S0 K T r sigma : R) :
  0 < T -> sigma <> 0 ->
  exists c p,
    CRR_option_value S0 K T r sigma "call" 1 = Ok c /\
    CRR_option_value S0 K T r sigma "put" 1 = Ok p /\
    c - p = S0 - K * exp (- (r * T)).
Proof.
  intros HT Hs.
  rewrite !single_step_eval by auto.
  eexists. eexists. split; [reflexivity|]. split; [reflexivity|].
  unfold inner_value. cbn [String.eqb Ascii.eqb Bool.eqb].
  pose proof (rmax_call_minus_put (S0 * u_of T sigma 1) K) as Hup.
  pose proof (rmax_call_minus_put (S0 * d_of T sigma 1) K) as Hdown.
  assert (Hdt : 0 < dt_of T 1) by (apply dt_pos; auto; lia).
  pose proof (u_minus_d_nonzero T sigma 1 Hdt Hs) as Hud.
  assert (Hq : q_of T r sigma 1 * (u_of T sigma 1 - d_of T sigma 1)
               = exp (r * dt_of T 1) - d_of T sigma 1).
  { unfold q_of. field. exact Hud. }
  assert (Hdf : df_of T r 1 * exp (r * dt_of T 1) = 1).
  { unfold df_of. rewrite <- exp_plus.
    replace (- r * dt_of T 1 + r * dt_of T 1) with 0 by ring.
    apply exp_0. }
  assert (HT1 : exp (- (r * T)) = df_of T r 1).
  { unfold df_of, dt_of. f_equal. field. }
  rewrite HT1.
  set (q := q_of T r sigma 1) in *. set (u := u_of T sigma 1) in *.
  set (d := d_of T sigma 1) in *. set (df := df_of T r 1) in *.
  set (g := exp (r * dt_of T 1)) in *.
  transitivity
    ((q * (Rmax (S0 * u - K) 0 - Rmax (K - S0 * u) 0)
      + (1 - q) * (Rmax (S0 * d - K) 0 - Rmax (K - S0 * d) 0)) * df);
    [ring|].
  rewrite Hup, Hdown.
  transitivity (S0 * (df * (q * (u - d) + d)) - K * df); [ring|].
  rewrite Hq. replace (g - d + d) with g by ring.
  rewrite Hdf. ring.
Qed.

Lemma reference_discount_bounds :
  0.9512294244 <= exp (- (0.05 * 1)) <= 0.9512294246.
Proof.
  assert (E : exp (- (0.05 * 1)) = 1 / exp (1 / 20)).
  { replace (1 / exp (1 / 20)) with (exp (- (1 / 20)))
      by (rewrite exp_Ropp; field; pose proof (exp_pos (1 / 20)); lra).
    f_equal. lra. }
  rewrite E. pose proof exp_one_twentieth.
  apply div_bounds; lra.
Qed.

(** ** Put-call parity of the specification's recurrence

    The backward induction that updates every state satisfies put-call
    parity exactly, for every number of steps. *)

Lemma exp_pow_nat (x : R) (n : nat) : exp x ^ n = exp (INR n * x).
Proof.
  induction n as [|n IH].
  - simpl. rewrite Rmult_0_l. now rewrite exp_0.
  - rewrite S_INR. simpl pow. rewrite IH, <- exp_plus. f_equal. ring.
Qed.

Lemma spec_value_call_minus_put (q df u d g S0 K : R) (n : nat) :
  q * u + (1 - q) * d = g -> df * g = 1 ->
  forall k i, (i + k <= n)%nat ->
    spec_value q df
      (fun j => spec_payoff Call K (spec_asset_price S0 u d j n)) k i
    - spec_value q df
        (fun j => spec_payoff Put K (spec_asset_price S0 u d j n)) k i
    = S0 * u ^ (n - k - i) * d ^ i - K * df ^ k.
Proof.
  intros Hq Hdf.
  set (tc := fun j => spec_payoff Call K (spec_asset_price S0 u d j n)).
  set (tp := fun j => spec_payoff Put K (spec_asset_price S0 u d j n)).
  induction k as [|k IH]; intros i Hik.
  - cbn [spec_value]. unfold tc, tp, spec_payoff, spec_asset_price.
    rewrite rmax_call_minus_put, Nat.sub_0_r. simpl pow. ring.
  - cbn [spec_value].
    pose proof (IH i ltac:(lia)) as H1.
    pose proof (IH (i + 1)%nat ltac:(lia)) as H2.
    transitivity
      (df * (q * (spec_value q df tc k i - spec_value q df tp k i)
             + (1 - q) * (spec_value q df tc k (i + 1)
                          - spec_value q df tp k (i + 1)))); [ring|].
    rewrite H1, H2.
    replace (n - k - i)%nat with (S (n - S k - i)) by lia.
    replace (n - k - (i + 1))%nat with (n - S k - i)%nat by lia.
    replace (i + 1)%nat with (S i) by lia.
    simpl pow.
    transitivity
      (S0 * u ^ (n - S k - i) * d ^ i * (df * (q * u + (1 - q) * d))
       - K * (df * df ^ k)); [ring|].
    rewrite Hq, Hdf. ring.
Qed.

Lemma spec_put_call_parity (S0 K T r sigma : R) (steps : Z) :
  (1 <= steps)%Z -> 0 < T -> sigma <> 0 ->
  spec_price S0 K T r sigma Call steps - spec_price S0 K T r sigma Put steps
    = S0 - K * exp (- (r * T)).
Proof.
  intros HM HT Hs. unfold spec_price.
  pose proof (dt_pos T steps HM HT) as Hdt.
  pose proof (u_minus_d_nonzero T sigma steps Hdt Hs) as Hud.
  rewrite (spec_value_call_minus_put _ _ _ _ (exp (r * dt_of T steps)));
    try lia.
  - rewrite !Nat.sub_diag. simpl pow.
    unfold df_of. rewrite exp_pow_nat, INR_IZR_INZ, Z2Nat.id by lia.
    replace (IZR steps * (- r * dt_of T steps)) with (- (r * T)).
    + ring.
    + unfold dt_of. field. apply not_0_IZR. lia.
  - unfold q_of. field. exact Hud.
  - unfold df_of. rewrite <- exp_plus.
    replace (- r * dt_of T steps + r * dt_of T steps) with 0 by ring.
    apply exp_0.
Qed.

(** ** Properties of the loop result *)

Lemma inner_value_nonneg (otype : string) (K s : R) :
  0 <= inner_value otype K s.
Proof.
  unfold inner_value. destruct (String.eqb otype "call"); apply Rmax_r.
Qed.

Lemma lattice_value_nonneg (q df : R) (M : nat) (V0 : nat -> nat -> R) :
  0 <= q <= 1 -> 0 <= df -> (forall i t, 0 <= V0 i t) ->
  forall k i, 0 <= lattice_value q df M V0 k i.
Proof.
  intros Hq Hdf HV. induction k as [|k IH]; intros i; cbn [lattice_value].
  - apply HV.
  - destruct (i <? S k)%nat; [|apply HV].
    apply Rmult_le_pos; auto.
    pose proof (IH i). pose proof (IH (i + 1)%nat).
    apply Rplus_le_le_0_compat; apply Rmult_le_pos; lra.
Qed.

(** A sufficient condition for the branch probability to lie strictly
    between 0 and 1: [-sigma * sqrt dt < r * dt < sigma * sqrt dt]. *)
Lemma q_of_unit_interval (T r sigma : R) (M : Z) :
  - (sigma * sqrt (dt_of T M)) < r * dt_of T M < sigma * sqrt (dt_of T M) ->
  0 < q_of T r sigma M < 1.
Proof.
  intros [Hlo Hhi]. unfold q_of, d_of, u_of.
  set (x := sigma * sqrt (dt_of T M)) in *.
  set (a := r * dt_of T M) in *.
  assert (Hd : 1 / exp x = exp (- x)) by (rewrite exp_Ropp; field;
    pose proof (exp_pos x); lra).
  rewrite Hd.
  pose proof (exp_increasing _ _ Hlo) as H1.
  pose proof (exp_increasing _ _ Hhi) as H2.
  assert (Hden : 0 < exp x - exp (- x)) by lra.
  split.
  - apply Rdiv_lt_0_compat; lra.
  - apply (Rmult_lt_reg_r (exp x - exp (- x))); auto.
    unfold Rdiv. rewrite Rmult_assoc, Rinv_l by lra. lra.
Qed.

(** ** Claims *)

(** C1: the returned price is not the result of the backward induction in
    which every state [0 .. t] of every column is updated.  In the
    reference scenario the function returns less than [9.4907], while that
    backward induction gives more than [9.9705]: the loop updates the rows
    [0 .. M-t-1] of column [t], not the rows [0 .. t]. *)
Theorem backward_induction_divergence :
  exists v,
    CRR_option_value 100 100 1 0.05 0.2 "call" 4 = Ok v /\
    v < 9.4907 /\
    9.9705 < spec_price 100 100 1 0.05 0.2 Call 4.
Proof.
  destruct reference_call_value as [v [Hv Hb]].
  pose proof reference_spec_call_value.
  exists v. split; [exact Hv|]. lra.
Qed.

(** C2: in the reference scenario ([S0 = K = 100], [T = 1], [r = 0.05],
    [sigma = 0.2], a call, four steps) the function returns a price
    within [1e-3] of [9.491]; the price rounds to the [9.491] that the
    notebook prints with three decimals. *)
Theorem reference_scenario_price :
  exists v,
    CRR_option_value 100 100 1 0.05 0.2 "call" 4 = Ok v /\
    Rabs (v - 9.491) < 0.001 /\
    9.4905 < v < 9.4915.
Proof.
  destruct reference_call_value as [v [Hv Hb]].
  exists v. split; [exact Hv|]. split.
  - apply Rabs_def1; lra.
  - lra.
Qed.

(** C3, as stated, fails: with a non-positive strike (all other arguments
    valid) the function returns a numeric price. *)
Lemma nonpositive_strike_is_priced :
  -100 <= 0 /\
  exists v, CRR_option_value 100 (-100) 1 0.05 0.2 "call" 4 = Ok v.
Proof.
  split; [lra|].
  rewrite CRR_option_value_eval by (lia || lra).
  eexists. reflexivity.
Qed.

(** C3, amended: nothing is validated, and there is no
    [InvalidParameters] failure.  For every input in which the maturity or
    the number of steps is non-positive, or the volatility is zero, the
    function returns no numeric price: one of Python's own exceptions is
    raised.  A non-positive initial price or strike is not rejected:
    whether a price is returned does not depend on the initial price or on
    the strike. *)
Theorem invalid_inputs_return_no_price
  (S0 K T r sigma : R) (otype : string) (M : Z) :
  ((M <= 0)%Z \/ T <= 0 \/ sigma = 0 ->
   forall v, CRR_option_value S0 K T r sigma otype M <> Ok v)
  /\
  (forall S0' K',
     (exists v, CRR_option_value S0 K T r sigma otype M = Ok v) ->
     exists v', CRR_option_value S0' K' T r sigma otype M = Ok v').
Proof.
  destruct (CRR_option_value_cases S0 K T r sigma otype M)
    as [[H1 [H2 [H3 _]]]|[_ [e He]]].
  - split.
    + intros [H|[H|H]]; [lia | lra | contradiction].
    + intros S0' K' _.
      rewrite CRR_option_value_eval by auto. eexists. reflexivity.
  - split.
    + intros _ v. rewrite He. discriminate.
    + intros S0' K' [v Hv]. rewrite He in Hv. discriminate.
Qed.

Lemma invalid_inputs_return_no_price_witness :
  (0 <= 0)%Z /\
  forall v, CRR_option_value 100 100 1 0.05 0.2 "call" 0 <> Ok v.
Proof.
  split; [lia|].
  apply (proj1 (invalid_inputs_return_no_price 100 100 1 0.05 0.2 "call" 0)).
  left. lia.
Defined.

(** C4, as stated, fails: an option kind that is neither ['call'] nor
    ['put'] is not rejected, a price is returned. *)
Lemma unsupported_otype_is_priced :
  "straddle"%string <> "call"%string /\
  "straddle"%string <> "put"%string /\
  exists v, CRR_option_value 100 100 1 0.05 0.2 "straddle" 4 = Ok v.
Proof.
  split; [discriminate|]. split; [discriminate|].
  rewrite CRR_option_value_eval by (lia || lra).
  eexists. reflexivity.
Qed.

(** C4, amended: for an option kind that is neither ['call'] nor ['put']
    no failure is signalled for the option kind; on every input that
    raises no arithmetic exception ([steps >= 1], [maturity > 0],
    [volatility <> 0]) the function returns a numeric price, the price of
    the put with the same arguments. *)
Theorem unrecognised_otype_priced_as_put
  (S0 K T r sigma : R) (otype : string) (M : Z) :
  otype <> "call"%string -> otype <> "put"%string ->
  (1 <= M)%Z -> 0 < T -> sigma <> 0 ->
  exists v,
    CRR_option_value S0 K T r sigma otype M = Ok v /\
    CRR_option_value S0 K T r sigma "put" M = Ok v.
Proof.
  intros Hc _ HM HT Hs.
  rewrite !CRR_option_value_eval by auto.
  eexists. split; [reflexivity|].
  f_equal. apply lattice_value_ext; try lia.
  intros i t _ _. unfold initial_value, inner_value.
  apply String.eqb_neq in Hc. now rewrite Hc.
Qed.

Lemma unrecognised_otype_priced_as_put_witness :
  exists v,
    CRR_option_value 100 100 1 0.05 0.2 "straddle" 4 = Ok v /\
    CRR_option_value 100 100 1 0.05 0.2 "put" 4 = Ok v.
Proof.
  apply unrecognised_otype_priced_as_put;
    try discriminate; try lia; lra.
Defined.

(** C5: the call and put prices that the function returns do not satisfy
    put-call parity up to an error that shrinks with the number of steps.
    In the reference scenario the parity error is zero with one step, and
    with four steps [call - put] is more than [1.269] below
    [S0 - K * exp(-r * T)]. *)
Theorem put_call_parity_gap :
  (exists c p,
     CRR_option_value 100 100 1 0.05 0.2 "call" 1 = Ok c /\
     CRR_option_value 100 100 1 0.05 0.2 "put" 1 = Ok p /\
     c - p = 100 - 100 * exp (- (0.05 * 1)))
  /\
  (exists c p,
     CRR_option_value 100 100 1 0.05 0.2 "call" 4 = Ok c /\
     CRR_option_value 100 100 1 0.05 0.2 "put" 4 = Ok p /\
     c - p < 100 - 100 * exp (- (0.05 * 1)) - 1.269).
Proof.
  split.
  - apply single_step_parity; lra.
  - destruct reference_call_value as [c [Hc Bc]].
    destruct reference_put_value as [p [Hp Bp]].
    pose proof reference_discount_bounds.
    exists c, p. repeat split; auto. lra.
Qed.

(** C6: for every valid input with [steps = 1] the returned price is
    exactly the two-branch discounted expectation
    [df * (q * max(u*S0 - K, 0) + (1 - q) * max(d*S0 - K, 0))] for a call,
    and the same expression with put payoffs for a put, where
    [u = exp(sigma * sqrt T)], [d = 1/u], [df = exp(-r * T)] and
    [q = (exp(r * T) - d) / (u - d)]. *)
Theorem single_step_price (S0 K T r sigma : R) :
  0 < S0 -> 0 < K -> 0 < T -> 0 < sigma ->
  0 < (exp (r * T) - 1 / exp (sigma * sqrt T))
      / (exp (sigma * sqrt T) - 1 / exp (sigma * sqrt T)) < 1 ->
  let u := exp (sigma * sqrt T) in
  let d := 1 / u in
  let df := exp (- r * T) in
  let q := (exp (r * T) - d) / (u - d) in
  CRR_option_value S0 K T r sigma "call" 1
    = Ok (df * (q * Rmax (u * S0 - K) 0 + (1 - q) * Rmax (d * S0 - K) 0))
  /\
  CRR_option_value S0 K T r sigma "put" 1
    = Ok (df * (q * Rmax (K - u * S0) 0 + (1 - q) * Rmax (K - d * S0) 0)).
Proof.
  intros HS0 HK HT Hs Hq u d df q.
  assert (Hdt : dt_of T 1 = T) by (unfold dt_of; field).
  assert (Hu : u_of T sigma 1 = u) by (unfold u_of; now rewrite Hdt).
  assert (Hd : d_of T sigma 1 = d) by (unfold d_of; now rewrite Hu).
  assert (Hdf : df_of T r 1 = df) by (unfold df_of; now rewrite Hdt).
  assert (Hq' : q_of T r sigma 1 = q)
    by (unfold q_of; now rewrite Hdt, Hu, Hd).
  assert (Hup : index_level S0 u d 0 1 = u * S0)
    by (unfold index_level; simpl; ring).
  assert (Hdown : index_level S0 u d 1 1 = d * S0)
    by (unfold index_level; simpl; ring).
  split; rewrite CRR_option_value_eval by (auto; lia || lra);
    rewrite Hu, Hd, Hdf, Hq'; f_equal;
    change (Z.to_nat 1) with 1%nat;
    cbn [lattice_value Nat.ltb Nat.leb Nat.add Nat.sub];
    unfold initial_value; rewrite Hup, Hdown;
    unfold inner_value; simpl; ring.
Qed.

Lemma single_step_price_witness :
  0 < 100 /\ 0 < 100 /\ 0 < 1 /\ 0 < 1 /\
  CRR_option_value 100 100 1 0 1 "call" 1
    = Ok (exp (- 0 * 1)
          * ((exp (0 * 1) - 1 / exp (1 * sqrt 1))
             / (exp (1 * sqrt 1) - 1 / exp (1 * sqrt 1))
             * Rmax (exp (1 * sqrt 1) * 100 - 100) 0
             + (1 - (exp (0 * 1) - 1 / exp (1 * sqrt 1))
                    / (exp (1 * sqrt 1) - 1 / exp (1 * sqrt 1)))
               * Rmax (1 / exp (1 * sqrt 1) * 100 - 100) 0)).
Proof.
  repeat (split; [lra|]).
  refine (proj1 (single_step_price 100 100 1 0 1 _ _ _ _ _)); try lra.
  pose proof (q_of_unit_interval 1 0 1 1) as Hq.
  unfold q_of, d_of, u_of, dt_of in Hq.
  replace (1 / 1) with 1 in Hq by field.
  apply Hq. rewrite sqrt_1. lra.
Defined.

(** C7: for every valid input (positive initial price, strike, maturity
    and volatility, [steps >= 1]) whose branch probability [q] lies in
    (0,1), the returned price is non-negative, whatever the option kind
    (call, put, or any other string). *)
Theorem price_nonnegative (S0 K T r sigma : R) (otype : string) (M : Z) :
  0 < S0 -> 0 < K -> 0 < T -> 0 < sigma -> (1 <= M)%Z ->
  0 < q_of T r sigma M < 1 ->
  exists v, CRR_option_value S0 K T r sigma otype M = Ok v /\ 0 <= v.
Proof.
  intros _ _ HT Hs HM Hq.
  rewrite CRR_option_value_eval by (auto; lra).
  eexists. split; [reflexivity|].
  apply lattice_value_nonneg.
  - lra.
  - unfold df_of. left. apply exp_pos.
  - intros i t. apply inner_value_nonneg.
Qed.

Lemma price_nonnegative_witness :
  exists v, CRR_option_value 100 100 1 0 1 "put" 2 = Ok v /\ 0 <= v.
Proof.
  apply price_nonnegative; try lra; try lia.
  apply q_of_unit_interval.
  assert (Hdt : 0 < dt_of 1 2) by (apply dt_pos; lia || lra).
  pose proof (sqrt_lt_R0 _ Hdt). lra.
Defined.

(** C8: the returned cell depends on the triangular region only.  Two
    [(M+1) x (M+1)] grids that agree on every cell [(i, t)] with
    [i <= t <= M], and differ arbitrarily on the filler cells [i > t],
    give the same [V[0, 0]] after the backward loop, be they taken as
    value grids or as index-level grids from which the inner values are
    computed first. *)
Theorem filler_cells_noninterference (q df : R) (M : nat) (G1 G2 : grid R) :
  square (M + 1) G1 -> square (M + 1) G2 ->
  (forall i t, (i <= t)%nat -> (t <= M)%nat -> cell G1 i t = cell G2 i t) ->
  grid_get (backwards_valuation q df M G1) 0 0
    = grid_get (backwards_valuation q df M G2) 0 0
  /\
  forall otype K,
    grid_get (backwards_valuation q df M (inner_values otype K G1)) 0 0
      = grid_get (backwards_valuation q df M (inner_values otype K G2)) 0 0.
Proof.
  intros H1 H2 Hagree. split.
  - rewrite !backwards_valuation_cell00 by auto.
    f_equal. apply lattice_value_ext; auto; lia.
  - intros otype K.
    destruct (inner_values_spec otype K _ _ H1) as [Hs1 Hc1].
    destruct (inner_values_spec otype K _ _ H2) as [Hs2 Hc2].
    rewrite !backwards_valuation_cell00 by auto.
    f_equal. apply lattice_value_ext; try lia.
    intros i t Hit Ht. rewrite Hc1, Hc2 by lia.
    now rewrite Hagree.
Qed.

Lemma filler_cells_noninterference_witness :
  grid_get (backwards_valuation (1/2) 1 1 [[1; 2]; [3; 4]]) 0 0
    = grid_get (backwards_valuation (1/2) 1 1 [[1; 2]; [7; 4]]) 0 0.
Proof.
  refine (proj1 (filler_cells_noninterference (1/2) 1 1
                   [[1; 2]; [3; 4]] [[1; 2]; [7; 4]] _ _ _)).
  - split; [reflexivity|]. repeat constructor.
  - split; [reflexivity|]. repeat constructor.
  - intros i t Hit Ht.
    destruct t as [|[|t]]; [| |lia];
      destruct i as [|[|i]]; try lia; reflexivity.
Defined.

(** C9: every option kind other than ['call'] (['put'] and any
    unrecognised string alike) is priced by the [else] branch, so the
    result is exactly the result for ['put']; and the option kind never
    causes a failure: when the function raises for one option kind, it
    raises the same exception for every other one. *)
Theorem otype_else_is_put (S0 K T r sigma : R) (otype : string) (M : Z) :
  otype <> "call"%string ->
  CRR_option_value S0 K T r sigma otype M
    = CRR_option_value S0 K T r sigma "put" M
  /\
  forall e otype',
    CRR_option_value S0 K T r sigma otype M = Raise e ->
    CRR_option_value S0 K T r sigma otype' M = Raise e.
Proof.
  intros Hne. split.
  - unfold CRR_option_value, inner_values.
    apply String.eqb_neq in Hne. now rewrite Hne.
  - intros e otype' He.
    destruct (CRR_option_value_cases S0 K T r sigma otype M)
      as [[_ [_ [_ Hok]]]|[_ [e' He']]].
    + rewrite He in Hok. destruct Hok.
    + rewrite He' in He. injection He as <-. apply He'.
Qed.

Lemma otype_else_is_put_witness :
  CRR_option_value 100 100 1 0.05 0.2 "straddle" 4
    = CRR_option_value 100 100 1 0.05 0.2 "put" 4.
Proof.
  refine (proj1 (otype_else_is_put 100 100 1 0.05 0.2 "straddle" 4 _)).
  discriminate.
Defined.



(** ** Further properties: comparison lemmas for the loop result *)

(** An upper bound [F] on the returned lattice: [F] dominates the initial
    content on the cells that the loop keeps, and dominates its own
    discounted average on the cells that the loop recomputes. *)
Lemma lattice_value_upper (q df : R) (M : nat) (V0 F : nat -> nat -> R) :
  0 <= q <= 1 -> 0 <= df ->
  (forall i t, (i <= t)%nat -> (t <= M)%nat -> (M - t <= i)%nat ->
     V0 i t <= F i t) ->
  (forall i t, (i <= t)%nat -> (i < M - t)%nat ->
     (q * F i (t + 1)%nat + (1 - q) * F (i + 1)%nat (t + 1)%nat) * df
       <= F i t) ->
  forall k i, (k <= M)%nat -> (i <= M - k)%nat ->
    lattice_value q df M V0 k i <= F i (M - k)%nat.
Proof.
  intros Hq Hdf Hkeep Hrec. induction k as [|k IH]; intros i Hk Hi.
  - cbn [lattice_value]. rewrite Nat.sub_0_r. apply Hkeep; lia.
  - cbn [lattice_value]. destruct (i <? S k)%nat eqn:E.
    + apply Nat.ltb_lt in E.
      pose proof (IH i ltac:(lia) ltac:(lia)) as H1.
      pose proof (IH (i + 1)%nat ltac:(lia) ltac:(lia)) as H2.
      eapply Rle_trans; [|apply (Hrec i (M - S k)%nat); lia].
      replace (M - S k + 1)%nat with (M - k)%nat by lia.
      apply Rmult_le_compat_r; auto.
      apply Rplus_le_compat; apply Rmult_le_compat_l; lra.
    + apply Nat.ltb_ge in E. apply Hkeep; lia.
Qed.

Lemma lattice_value_lower (q df : R) (M : nat) (V0 F : nat -> nat -> R) :
  0 <= q <= 1 -> 0 <= df ->
  (forall i t, (i <= t)%nat -> (t <= M)%nat -> (M - t <= i)%nat ->
     F i t <= V0 i t) ->
  (forall i t, (i <= t)%nat -> (i < M - t)%nat ->
     F i t
       <= (q * F i (t + 1)%nat + (1 - q) * F (i + 1)%nat (t + 1)%nat) * df) ->
  forall k i, (k <= M)%nat -> (i <= M - k)%nat ->
    F i (M - k)%nat <= lattice_value q df M V0 k i.
Proof.
  intros Hq Hdf Hkeep Hrec. induction k as [|k IH]; intros i Hk Hi.
  - cbn [lattice_value]. rewrite Nat.sub_0_r. apply Hkeep; lia.
  - cbn [lattice_value]. destruct (i <? S k)%nat eqn:E.
    + apply Nat.ltb_lt in E.
      pose proof (IH i ltac:(lia) ltac:(lia)) as H1.
      pose proof (IH (i + 1)%nat ltac:(lia) ltac:(lia)) as H2.
      eapply Rle_trans; [apply (Hrec i (M - S k)%nat); lia|].
      replace (M - S k + 1)%nat with (M - k)%nat by lia.
      apply Rmult_le_compat_r; auto.
      apply Rplus_le_compat; apply Rmult_le_compat_l; lra.
    + apply Nat.ltb_ge in E. apply Hkeep; lia.
Qed.

(** The same with equalities, without any condition on [q] and [df]. *)
Lemma lattice_value_exact (q df : R) (M : nat) (V0 F : nat -> nat -> R) :
  (forall i t, (i <= t)%nat -> (t <= M)%nat -> (M - t <= i)%nat ->
     V0 i t = F i t) ->
  (forall i t, (i <= t)%nat -> (i < M - t)%nat ->
     (q * F i (t + 1)%nat + (1 - q) * F (i + 1)%nat (t + 1)%nat) * df
       = F i t) ->
  forall k i, (k <= M)%nat -> (i <= M - k)%nat ->
    lattice_value q df M V0 k i = F i (M - k)%nat.
Proof.
  intros Hkeep Hrec. induction k as [|k IH]; intros i Hk Hi.
  - cbn [lattice_value]. rewrite Nat.sub_0_r. apply Hkeep; lia.
  - cbn [lattice_value]. destruct (i <? S k)%nat eqn:E.
    + apply Nat.ltb_lt in E.
      rewrite (IH i), (IH (i + 1)%nat) by lia.
      rewrite <- (Hrec i (M - S k)%nat) by lia.
      now replace (M - S k + 1)%nat with (M - k)%nat by lia.
    + apply Nat.ltb_ge in E. apply Hkeep; lia.
Qed.

Lemma lattice_value_mono (q df : R) (M : nat) (V0 V0' : nat -> nat -> R) :
  0 <= q <= 1 -> 0 <= df ->
  (forall i t, (i <= t)%nat -> (t <= M)%nat -> V0 i t <= V0' i t) ->
  forall k i, (k <= M)%nat -> (i <= M - k)%nat ->
    lattice_value q df M V0 k i <= lattice_value q df M V0' k i.
Proof.
  intros Hq Hdf Hle. induction k as [|k IH]; intros i Hk Hi.
  - cbn [lattice_value]. apply Hle; lia.
  - cbn [lattice_value]. destruct (i <? S k)%nat.
    + pose proof (IH i ltac:(lia) ltac:(lia)).
      pose proof (IH (i + 1)%nat ltac:(lia) ltac:(lia)).
      apply Rmult_le_compat_r; auto.
      apply Rplus_le_compat; apply Rmult_le_compat_l; lra.
    + apply Hle; lia.
Qed.

(** The loop result is linear in the initial contents. *)
Lemma lattice_value_minus (q df : R) (M : nat) (V0 V0' : nat -> nat -> R) :
  forall k i,
    lattice_value q df M V0 k i - lattice_value q df M V0' k i
      = lattice_value q df M (fun i t => V0 i t - V0' i t) k i.
Proof.
  induction k as [|k IH]; intros i; cbn [lattice_value]; auto.
  destruct (i <? S k)%nat; auto.
  rewrite <- !IH. ring.
Qed.

Lemma lattice_value_scale (q df c : R) (M : nat) (V0 : nat -> nat -> R) :
  forall k i,
    lattice_value q df M (fun i t => c * V0 i t) k i
      = c * lattice_value q df M V0 k i.
Proof.
  induction k as [|k IH]; intros i; cbn [lattice_value]; auto.
  destruct (i <? S k)%nat; auto.
  rewrite !IH. ring.
Qed.

(** Shifting the initial contents up by at most [delta] shifts the result
    up by at most [delta], as long as nothing is compounded ([df <= 1]). *)
Lemma lattice_value_shift (q df delta : R) (M : nat)
  (V0 V0' : nat -> nat -> R) :
  0 <= q <= 1 -> 0 <= df <= 1 -> 0 <= delta ->
  (forall i t, (i <= t)%nat -> (t <= M)%nat -> V0 i t <= V0' i t + delta) ->
  forall k i, (k <= M)%nat -> (i <= M - k)%nat ->
    lattice_value q df M V0 k i <= lattice_value q df M V0' k i + delta.
Proof.
  intros Hq Hdf Hdelta Hle. induction k as [|k IH]; intros i Hk Hi.
  - cbn [lattice_value]. apply Hle; lia.
  - cbn [lattice_value]. destruct (i <? S k)%nat.
    + pose proof (IH i ltac:(lia) ltac:(lia)) as H1.
      pose proof (IH (i + 1)%nat ltac:(lia) ltac:(lia)) as H2.
      set (a := lattice_value q df M V0 k i) in *.
      set (b := lattice_value q df M V0 k (i + 1)) in *.
      set (a' := lattice_value q df M V0' k i) in *.
      set (b' := lattice_value q df M V0' k (i + 1)) in *.
      assert (Havg : q * a + (1 - q) * b
                     <= q * a' + (1 - q) * b' + delta) by nra.
      assert (Hd : delta * df <= delta) by nra.
      apply Rle_trans with ((q * a' + (1 - q) * b' + delta) * df).
      * apply Rmult_le_compat_r; lra.
      * lra.
    + apply Hle; lia.
Qed.

(** ** Further properties: the lattice parameters and the index levels *)

Lemma u_of_pos (T sigma : R) (M : Z) : 0 < u_of T sigma M.
Proof. unfold u_of. apply exp_pos. Qed.

Lemma d_of_pos (T sigma : R) (M : Z) : 0 < d_of T sigma M.
Proof.
  unfold d_of. apply Rdiv_lt_0_compat; [lra | apply u_of_pos].
Qed.

Lemma df_of_pos (T r : R) (M : Z) : 0 < df_of T r M.
Proof. unfold df_of. apply exp_pos. Qed.

Lemma df_of_le_1 (T r : R) (M : Z) :
  0 <= r -> 0 <= dt_of T M -> df_of T r M <= 1.
Proof.
  intros Hr Hdt. unfold df_of. rewrite <- exp_0.
  assert (H : - r * dt_of T M <= 0) by nra.
  destruct H as [H|H]; [left; now apply exp_increasing | rewrite H; lra].
Qed.

Lemma u_of_ge_1 (T sigma : R) (M : Z) : 0 <= sigma -> 1 <= u_of T sigma M.
Proof.
  intros Hs. unfold u_of. rewrite <- exp_0.
  assert (H : 0 <= sigma * sqrt (dt_of T M))
    by (apply Rmult_le_pos; [auto | apply sqrt_pos]).
  destruct H as [H|H]; [left; now apply exp_increasing | rewrite <- H; lra].
Qed.

Lemma d_of_le_1 (T sigma : R) (M : Z) : 0 <= sigma -> d_of T sigma M <= 1.
Proof.
  intros Hs. pose proof (u_of_ge_1 T sigma M Hs). unfold d_of.
  apply (Rmult_le_reg_r (u_of T sigma M)); [lra|].
  unfold Rdiv. rewrite Rmult_assoc, Rinv_l by lra. lra.
Qed.

(** The branch probability makes the up and down moves average to the
    growth factor, so discounting the average gives the level back. *)
Lemma risk_neutral_step (T r sigma : R) (M : Z) (x : R) :
  0 < dt_of T M -> sigma <> 0 ->
  (q_of T r sigma M * (x * u_of T sigma M)
   + (1 - q_of T r sigma M) * (x * d_of T sigma M)) * df_of T r M = x.
Proof.
  intros Hdt Hs.
  pose proof (u_minus_d_nonzero T sigma M Hdt Hs) as Hud.
  assert (Hq : q_of T r sigma M * (u_of T sigma M - d_of T sigma M)
               = exp (r * dt_of T M) - d_of T sigma M)
    by (unfold q_of; field; exact Hud).
  assert (Hdf : df_of T r M * exp (r * dt_of T M) = 1).
  { unfold df_of. rewrite <- exp_plus.
    replace (- r * dt_of T M + r * dt_of T M) with 0 by ring.
    apply exp_0. }
  set (q := q_of T r sigma M) in *. set (u := u_of T sigma M) in *.
  set (d := d_of T sigma M) in *. set (df := df_of T r M) in *.
  set (g := exp (r * dt_of T M)) in *.
  transitivity (x * (df * (q * (u - d) + d))); [ring|].
  rewrite Hq. replace (g - d + d) with g by ring.
  rewrite Hdf. ring.
Qed.

Lemma index_level_up (S0 u d : R) (i t : nat) :
  u <> 0 ->
  index_level S0 u d i (t + 1) = index_level S0 u d i t * u.
Proof.
  intros Hu. unfold index_level.
  replace (Z.of_nat (t + 1) - Z.of_nat i)%Z
    with ((Z.of_nat t - Z.of_nat i) + 1)%Z by lia.
  rewrite powerRZ_add by auto. rewrite powerRZ_1. ring.
Qed.

Lemma index_level_down (S0 u d : R) (i t : nat) :
  index_level S0 u d (i + 1) (t + 1) = index_level S0 u d i t * d.
Proof.
  unfold index_level.
  replace (Z.of_nat (t + 1) - Z.of_nat (i + 1))%Z
    with (Z.of_nat t - Z.of_nat i)%Z by lia.
  rewrite <- !pow_powerRZ.
  replace (i + 1)%nat with (S i) by lia. simpl pow. ring.
Qed.

Lemma index_level_nonneg (S0 u d : R) (i t : nat) :
  0 <= S0 -> 0 < u -> 0 < d -> 0 <= index_level S0 u d i t.
Proof.
  intros HS Hu Hd. unfold index_level.
  apply Rmult_le_pos; [apply Rmult_le_pos; auto|];
    now apply powerRZ_le.
Qed.

(** The recurrence of the index levels under the function's own
    parameters. *)
Lemma index_level_martingale (S0 T r sigma : R) (M : Z) (i t : nat) :
  0 < dt_of T M -> sigma <> 0 ->
  (q_of T r sigma M
     * index_level S0 (u_of T sigma M) (d_of T sigma M) i (t + 1)
   + (1 - q_of T r sigma M)
     * index_level S0 (u_of T sigma M) (d_of T sigma M) (i + 1) (t + 1))
  * df_of T r M
  = index_level S0 (u_of T sigma M) (d_of T sigma M) i t.
Proof.
  intros Hdt Hs.
  rewrite index_level_up, index_level_down
    by (pose proof (u_of_pos T sigma M); lra).
  now apply risk_neutral_step.
Qed.

(** The grids of a run: [mu], the index levels and the inner values. *)
Lemma run_grids (S0 K u d : R) (otype : string) (M : Z) :
  (0 <= M)%Z ->
  exists mu,
    np_resize (np_arange (M + 1)) (M + 1) (M + 1) = Ok mu /\
    square (Z.to_nat M + 1) (index_levels S0 u d mu) /\
    square (Z.to_nat M + 1) (inner_values otype K (index_levels S0 u d mu)) /\
    (forall i t, (i <= Z.to_nat M)%nat -> (t <= Z.to_nat M)%nat ->
       cell (index_levels S0 u d mu) i t = index_level S0 u d i t) /\
    (forall i t, (i <= Z.to_nat M)%nat -> (t <= Z.to_nat M)%nat ->
       cell (inner_values otype K (index_levels S0 u d mu)) i t
         = initial_value S0 K u d otype i t).
Proof.
  intros HM.
  destruct (np_resize_arange M HM) as [mu [Hmu [Hsq Hcells]]].
  destruct (index_levels_spec S0 u d (Z.to_nat M) mu Hsq Hcells)
    as [HsqS HcellS].
  destruct (inner_values_spec otype K _ _ HsqS) as [HsqV HcellV].
  exists mu. split; [exact Hmu|]. split; [exact HsqS|].
  split; [exact HsqV|]. split; [exact HcellS|].
  intros i t Hi Ht. unfold initial_value.
  rewrite HcellV by lia. now rewrite HcellS.
Qed.

(** A valid input for the witnesses below: no interest, unit volatility,
    two steps. *)
Lemma q_of_example : 0 < q_of 1 0 1 2 < 1.
Proof.
  apply q_of_unit_interval.
  assert (Hdt : 0 < dt_of 1 2) by (apply dt_pos; lia || lra).
  pose proof (sqrt_lt_R0 _ Hdt). lra.
Qed.

Lemma index_level_origin (S0 u d : R) : index_level S0 u d 0 0 = S0.
Proof. unfold index_level. simpl. ring. Qed.

(** The final grid of the loop, cell by cell. *)
Lemma backwards_valuation_cells (q df : R) (M : nat) (V : grid R) :
  square (M + 1) V ->
  square (M + 1) (backwards_valuation q df M V) /\
  forall i j, (j <= M)%nat ->
    cell (backwards_valuation q df M V) i j
      = lattice_value q df M (cell V) (M - j) i.
Proof.
  intros HV. rewrite backwards_valuation_fold.
  destruct (loop_invariant q df M V M 0) as [Hsq Hcell];
    [lia | exact HV |].
  split; [exact Hsq|].
  intros i j Hj. exact (Hcell i j Hj).
Qed.

(** ** Further properties: the grids *)

(** X1: the index-level array has shape [(M+1) x (M+1)] and holds
    [S0 * u^(t-i) * d^i] in every cell [(i, t)], the filler cells
    [i > t] (negative power of [u]) included. *)
Theorem index_levels_cells (S0 u d : R) (M : Z) :
  (0 <= M)%Z ->
  exists mu,
    np_resize (np_arange (M + 1)) (M + 1) (M + 1) = Ok mu /\
    square (Z.to_nat M + 1) (index_levels S0 u d mu) /\
    forall i t, (i <= Z.to_nat M)%nat -> (t <= Z.to_nat M)%nat ->
      cell (index_levels S0 u d mu) i t
        = S0 * powerRZ u (Z.of_nat t - Z.of_nat i) * powerRZ d (Z.of_nat i).
Proof.
  intros HM.
  destruct (run_grids S0 0 u d "call" M HM) as [mu [H1 [H2 [_ [H3 _]]]]].
  exists mu. split; [exact H1|]. split; [exact H2|]. exact H3.
Qed.

Lemma index_levels_cells_witness :
  exists mu,
    np_resize (np_arange (2 + 1)) (2 + 1) (2 + 1) = Ok mu /\
    square (Z.to_nat 2 + 1) (index_levels 100 2 (1 / 2) mu) /\
    forall i t, (i <= Z.to_nat 2)%nat -> (t <= Z.to_nat 2)%nat ->
      cell (index_levels 100 2 (1 / 2) mu) i t
        = 100 * powerRZ 2 (Z.of_nat t - Z.of_nat i)
          * powerRZ (1 / 2) (Z.of_nat i).
Proof. apply index_levels_cells. lia. Defined.

(** X2: the lattice recombines.  With [d = 1 / u], as the function sets
    it, an up move and a down move in either order give the level back:
    [S[i+1, t+2] = S[i, t]]. *)
Theorem index_levels_recombine (S0 u : R) (M : Z) :
  0 < u -> (0 <= M)%Z ->
  exists mu,
    np_resize (np_arange (M + 1)) (M + 1) (M + 1) = Ok mu /\
    forall i t, (i + 1 <= Z.to_nat M)%nat -> (t + 2 <= Z.to_nat M)%nat ->
      cell (index_levels S0 u (1 / u) mu) (i + 1) (t + 2)
        = cell (index_levels S0 u (1 / u) mu) i t.
Proof.
  intros Hu HM.
  destruct (run_grids S0 0 u (1 / u) "call" M HM)
    as [mu [H1 [_ [_ [H3 _]]]]].
  exists mu. split; [exact H1|].
  intros i t Hi Ht. rewrite !H3 by lia.
  replace (t + 2)%nat with ((t + 1) + 1)%nat by lia.
  rewrite index_level_down, index_level_up by lra.
  field. lra.
Qed.

Lemma index_levels_recombine_witness :
  exists mu,
    np_resize (np_arange (2 + 1)) (2 + 1) (2 + 1) = Ok mu /\
    forall i t, (i + 1 <= Z.to_nat 2)%nat -> (t + 2 <= Z.to_nat 2)%nat ->
      cell (index_levels 100 2 (1 / 2) mu) (i + 1) (t + 2)
        = cell (index_levels 100 2 (1 / 2) mu) i t.
Proof. apply index_levels_recombine; lra || lia. Defined.

(** X3: under the function's own [u], [d], [q] and [df] the index levels
    are a discounted martingale: for every cell that has both successors
    in the array,
    [(q * S[i, t+1] + (1 - q) * S[i+1, t+1]) * df = S[i, t]]. *)
Theorem index_levels_martingale (S0 T r sigma : R) (M : Z) :
  (1 <= M)%Z -> 0 < T -> sigma <> 0 ->
  exists mu,
    np_resize (np_arange (M + 1)) (M + 1) (M + 1) = Ok mu /\
    forall i t, (i < Z.to_nat M)%nat -> (t < Z.to_nat M)%nat ->
      (q_of T r sigma M
         * cell (index_levels S0 (u_of T sigma M) (d_of T sigma M) mu)
             i (t + 1)
       + (1 - q_of T r sigma M)
         * cell (index_levels S0 (u_of T sigma M) (d_of T sigma M) mu)
             (i + 1) (t + 1))
      * df_of T r M
      = cell (index_levels S0 (u_of T sigma M) (d_of T sigma M) mu) i t.
Proof.
  intros HM HT Hs.
  destruct (run_grids S0 0 (u_of T sigma M) (d_of T sigma M) "call" M)
    as [mu [H1 [_ [_ [H3 _]]]]]; [lia|].
  exists mu. split; [exact H1|].
  intros i t Hi Ht. rewrite !H3 by lia.
  apply index_level_martingale; auto using dt_pos.
Qed.

Lemma index_levels_martingale_witness :
  exists mu,
    np_resize (np_arange (2 + 1)) (2 + 1) (2 + 1) = Ok mu /\
    forall i t, (i < Z.to_nat 2)%nat -> (t < Z.to_nat 2)%nat ->
      (q_of 1 0 1 2
         * cell (index_levels 100 (u_of 1 1 2) (d_of 1 1 2) mu) i (t + 1)
       + (1 - q_of 1 0 1 2)
         * cell (index_levels 100 (u_of 1 1 2) (d_of 1 1 2) mu)
             (i + 1) (t + 1))
      * df_of 1 0 2
      = cell (index_levels 100 (u_of 1 1 2) (d_of 1 1 2) mu) i t.
Proof. apply index_levels_martingale; lra || lia. Defined.

(** ** Further properties: the backward loop on an arbitrary grid *)

(** X4: the loop keeps the shape of the array and assigns only cells
    [(i, t)] with [i < M - t]: every cell with [i >= M - t], the whole
    terminal column among them, still holds its initial content after
    the loop. *)
Theorem loop_keeps_cells (q df : R) (M : nat) (V : grid R) :
  square (M + 1) V ->
  square (M + 1) (backwards_valuation q df M V) /\
  forall i t, (t <= M)%nat -> (M - t <= i)%nat ->
    cell (backwards_valuation q df M V) i t = cell V i t.
Proof.
  intros HV.
  destruct (backwards_valuation_cells q df M V HV) as [Hsq Hcell].
  split; [exact Hsq|].
  intros i t Ht Hi. rewrite Hcell by lia.
  destruct (M - t)%nat as [|k] eqn:E.
  - cbn [lattice_value]. now replace t with M by lia.
  - rewrite lattice_value_keep by lia.
    now replace (M - S k)%nat with t by lia.
Qed.

Lemma loop_keeps_cells_witness :
  square (1 + 1) (backwards_valuation (1 / 2) 1 1 [[1; 2]; [3; 4]]) /\
  forall i t, (t <= 1)%nat -> (1 - t <= i)%nat ->
    cell (backwards_valuation (1 / 2) 1 1 [[1; 2]; [3; 4]]) i t
      = cell [[1; 2]; [3; 4]] i t.
Proof.
  apply loop_keeps_cells. split; [reflexivity|]. repeat constructor.
Defined.

(** X5: after the loop, every assigned cell [(i, t)], [i < M - t], is the
    discounted average of the final contents of its two successors:
    [V[i, t] = (q * V[i, t+1] + (1 - q) * V[i+1, t+1]) * df].  Later
    iterations never disturb the column an earlier one has read. *)
Theorem loop_assigned_cells (q df : R) (M : nat) (V : grid R) :
  square (M + 1) V ->
  forall i t, (i < M - t)%nat ->
    cell (backwards_valuation q df M V) i t
      = (q * cell (backwards_valuation q df M V) i (t + 1)
         + (1 - q) * cell (backwards_valuation q df M V) (i + 1) (t + 1))
        * df.
Proof.
  intros HV i t Hi.
  destruct (backwards_valuation_cells q df M V HV) as [_ Hcell].
  rewrite !Hcell by lia.
  replace (M - t)%nat with (S (M - (t + 1))) by lia.
  now rewrite lattice_value_step by lia.
Qed.

Lemma loop_assigned_cells_witness :
  cell (backwards_valuation (1 / 2) 1 2
          [[1; 2; 3]; [4; 5; 6]; [7; 8; 9]]) 1 0
    = (1 / 2 * cell (backwards_valuation (1 / 2) 1 2
                       [[1; 2; 3]; [4; 5; 6]; [7; 8; 9]]) 1 (0 + 1)
       + (1 - 1 / 2)
         * cell (backwards_valuation (1 / 2) 1 2
                   [[1; 2; 3]; [4; 5; 6]; [7; 8; 9]]) (1 + 1) (0 + 1))
      * 1.
Proof.
  apply loop_assigned_cells.
  - split; [reflexivity|]. repeat constructor.
  - simpl. lia.
Defined.

(** X6: the loop is monotone.  For [0 <= q <= 1] and [df >= 0], if one
    grid is below another on every cell of the triangle [i <= t <= M],
    the returned cell [V[0, 0]] is below as well. *)
Theorem loop_monotone (q df : R) (M : nat) (G1 G2 : grid R) :
  0 <= q <= 1 -> 0 <= df ->
  square (M + 1) G1 -> square (M + 1) G2 ->
  (forall i t, (i <= t)%nat -> (t <= M)%nat -> cell G1 i t <= cell G2 i t) ->
  exists v1 v2,
    grid_get (backwards_valuation q df M G1) 0 0 = Ok v1 /\
    grid_get (backwards_valuation q df M G2) 0 0 = Ok v2 /\
    v1 <= v2.
Proof.
  intros Hq Hdf H1 H2 Hle.
  rewrite !backwards_valuation_cell00 by auto.
  eexists. eexists. split; [reflexivity|]. split; [reflexivity|].
  apply lattice_value_mono; auto; lia.
Qed.

Lemma loop_monotone_witness :
  exists v1 v2,
    grid_get (backwards_valuation (1 / 2) 1 1 [[1; 2]; [9; 4]]) 0 0 = Ok v1 /\
    grid_get (backwards_valuation (1 / 2) 1 1 [[1; 3]; [0; 5]]) 0 0 = Ok v2 /\
    v1 <= v2.
Proof.
  apply loop_monotone; try lra.
  - split; [reflexivity|]. repeat constructor.
  - split; [reflexivity|]. repeat constructor.
  - intros i t Hit Ht.
    destruct t as [|[|t]]; [| |lia];
      destruct i as [|[|i]]; try lia; unfold cell; simpl; lra.
Defined.

(** ** Further properties: the returned price *)

Lemma inner_value_scale (otype : string) (c K s : R) :
  0 <= c ->
  inner_value otype (c * K) (c * s) = c * inner_value otype K s.
Proof.
  intros Hc. unfold inner_value.
  destruct (String.eqb otype "call").
  - rewrite <- (Rmult_0_r c) at 1. rewrite <- RmaxRmult by auto.
    f_equal. ring.
  - rewrite <- (Rmult_0_r c) at 1. rewrite <- RmaxRmult by auto.
    f_equal. ring.
Qed.

(** X7: the price is positively homogeneous in the pair (initial level,
    strike): scaling both by [c >= 0] scales the returned price by [c]. *)
Theorem price_homogeneous (c S0 K T r sigma : R) (otype : string) (M : Z) :
  0 <= c -> (1 <= M)%Z -> 0 < T -> sigma <> 0 ->
  exists v,
    CRR_option_value S0 K T r sigma otype M = Ok v /\
    CRR_option_value (c * S0) (c * K) T r sigma otype M = Ok (c * v).
Proof.
  intros Hc HM HT Hs.
  rewrite !CRR_option_value_eval by auto.
  eexists. split; [reflexivity|]. f_equal.
  rewrite <- lattice_value_scale.
  apply lattice_value_ext; try lia.
  intros i t _ _. unfold initial_value.
  rewrite <- inner_value_scale by auto.
  f_equal. unfold index_level. ring.
Qed.

Lemma price_homogeneous_witness :
  exists v,
    CRR_option_value 100 90 1 0.05 0.2 "put" 4 = Ok v /\
    CRR_option_value (3 * 100) (3 * 90) 1 0.05 0.2 "put" 4 = Ok (3 * v).
Proof. apply price_homogeneous; lra || lia. Defined.

(** X8: a call is never worth more than the underlying.  For a
    non-negative initial level and strike and a branch probability in
    [0, 1], the returned call price is at most [S0]. *)
Theorem call_price_at_most_spot (S0 K T r sigma : R) (M : Z) :
  0 <= S0 -> 0 <= K -> (1 <= M)%Z -> 0 < T -> sigma <> 0 ->
  0 <= q_of T r sigma M <= 1 ->
  exists v, CRR_option_value S0 K T r sigma "call" M = Ok v /\ v <= S0.
Proof.
  intros HS HK HM HT Hs Hq.
  rewrite CRR_option_value_eval by auto.
  eexists. split; [reflexivity|].
  pose proof (dt_pos T M HM HT) as Hdt.
  set (u := u_of T sigma M). set (d := d_of T sigma M).
  assert (B : lattice_value (q_of T r sigma M) (df_of T r M) (Z.to_nat M)
                (initial_value S0 K u d "call") (Z.to_nat M) 0
              <= index_level S0 u d 0 (Z.to_nat M - Z.to_nat M)).
  { apply lattice_value_upper; try lia; auto.
    - left. apply df_of_pos.
    - intros i t _ _ _. unfold initial_value, inner_value. simpl.
      pose proof (index_level_nonneg S0 u d i t HS
                    (u_of_pos T sigma M) (d_of_pos T sigma M)).
      apply Rmax_lub; lra.
    - intros i t _ _. right. now apply index_level_martingale. }
  now rewrite Nat.sub_diag, index_level_origin in B.
Qed.

Lemma call_price_at_most_spot_witness :
  exists v, CRR_option_value 100 100 1 0 1 "call" 2 = Ok v /\ v <= 100.
Proof.
  apply call_price_at_most_spot; try lra; try lia.
  pose proof q_of_example. lra.
Defined.

(** X9: a put is never worth more than its strike.  For a non-negative
    initial level, strike and rate and a branch probability in [0, 1],
    the returned put price is at most [K]. *)
Theorem put_price_at_most_strike (S0 K T r sigma : R) (M : Z) :
  0 <= S0 -> 0 <= K -> 0 <= r -> (1 <= M)%Z -> 0 < T -> sigma <> 0 ->
  0 <= q_of T r sigma M <= 1 ->
  exists v, CRR_option_value S0 K T r sigma "put" M = Ok v /\ v <= K.
Proof.
  intros HS HK Hr HM HT Hs Hq.
  rewrite CRR_option_value_eval by auto.
  eexists. split; [reflexivity|].
  pose proof (dt_pos T M HM HT) as Hdt.
  pose proof (df_of_pos T r M) as Hdf0.
  pose proof (df_of_le_1 T r M Hr (Rlt_le _ _ Hdt)) as Hdf1.
  set (u := u_of T sigma M). set (d := d_of T sigma M).
  apply (lattice_value_upper (q_of T r sigma M) (df_of T r M)
           (Z.to_nat M) (initial_value S0 K u d "put")
           (fun _ _ => K) Hq (Rlt_le _ _ Hdf0)); try lia.
  - intros i t _ _ _. unfold initial_value, inner_value. simpl.
    pose proof (index_level_nonneg S0 u d i t HS
                  (u_of_pos T sigma M) (d_of_pos T sigma M)).
    apply Rmax_lub; lra.
  - intros i t _ _.
    replace (q_of T r sigma M * K + (1 - q_of T r sigma M) * K)
      with K by ring.
    nra.
Qed.

Lemma put_price_at_most_strike_witness :
  exists v, CRR_option_value 100 100 1 0 1 "put" 2 = Ok v /\ v <= 100.
Proof.
  apply put_price_at_most_strike; try lra; try lia.
  pose proof q_of_example. lra.
Defined.

(** X10: a call is never worth less than its intrinsic value.  For a
    non-negative strike and rate and a branch probability in [0, 1], the
    returned call price is at least [max(S0 - K, 0)]. *)
Theorem call_price_at_least_intrinsic (S0 K T r sigma : R) (M : Z) :
  0 <= K -> 0 <= r -> (1 <= M)%Z -> 0 < T -> sigma <> 0 ->
  0 <= q_of T r sigma M <= 1 ->
  exists v,
    CRR_option_value S0 K T r sigma "call" M = Ok v /\
    Rmax (S0 - K) 0 <= v.
Proof.
  intros HK Hr HM HT Hs Hq.
  rewrite CRR_option_value_eval by auto.
  eexists. split; [reflexivity|].
  pose proof (dt_pos T M HM HT) as Hdt.
  pose proof (df_of_pos T r M) as Hdf0.
  pose proof (df_of_le_1 T r M Hr (Rlt_le _ _ Hdt)) as Hdf1.
  set (u := u_of T sigma M). set (d := d_of T sigma M).
  set (q := q_of T r sigma M) in *. set (df := df_of T r M) in *.
  assert (B : initial_value S0 K u d "call" 0 (Z.to_nat M - Z.to_nat M)
              <= lattice_value q df (Z.to_nat M)
                   (initial_value S0 K u d "call") (Z.to_nat M) 0);
    [| rewrite Nat.sub_diag in B; unfold initial_value, inner_value in B;
       simpl in B; now rewrite index_level_origin in B].
  apply lattice_value_lower; try lia; auto; try lra.
  - intros i t _ _ _. lra.
  - intros i t _ _.
    pose proof (index_level_martingale S0 T r sigma M i t Hdt Hs) as Hm.
    fold u d q df in Hm.
    unfold initial_value, inner_value. simpl.
    set (s := index_level S0 u d i t) in *.
    set (su := index_level S0 u d i (t + 1)) in *.
    set (sd := index_level S0 u d (i + 1) (t + 1)) in *.
    pose proof (Rmax_l (su - K) 0). pose proof (Rmax_r (su - K) 0).
    pose proof (Rmax_l (sd - K) 0). pose proof (Rmax_r (sd - K) 0).
    set (a := Rmax (su - K) 0) in *. set (b := Rmax (sd - K) 0) in *.
    assert (Havg : q * (su - K) + (1 - q) * (sd - K) <= q * a + (1 - q) * b)
      by nra.
    assert (Hpos : 0 <= q * a + (1 - q) * b) by nra.
    apply Rmax_lub.
    + apply Rle_trans with ((q * (su - K) + (1 - q) * (sd - K)) * df).
      * replace ((q * (su - K) + (1 - q) * (sd - K)) * df)
          with ((q * su + (1 - q) * sd) * df - K * df) by ring.
        rewrite Hm. nra.
      * apply Rmult_le_compat_r; lra.
    + apply Rmult_le_pos; lra.
Qed.

Lemma call_price_at_least_intrinsic_witness :
  exists v,
    CRR_option_value 100 90 1 0 1 "call" 2 = Ok v /\
    Rmax (100 - 90) 0 <= v.
Proof.
  apply call_price_at_least_intrinsic; try lra; try lia.
  pose proof q_of_example. lra.
Defined.

(** X11: monotonicity in the strike.  For a branch probability in [0, 1],
    raising the strike never raises the returned call price and never
    lowers the returned put price. *)
Theorem price_monotone_in_strike (S0 K1 K2 T r sigma : R) (M : Z) :
  K1 <= K2 -> (1 <= M)%Z -> 0 < T -> sigma <> 0 ->
  0 <= q_of T r sigma M <= 1 ->
  exists c1 c2 p1 p2,
    CRR_option_value S0 K1 T r sigma "call" M = Ok c1 /\
    CRR_option_value S0 K2 T r sigma "call" M = Ok c2 /\
    CRR_option_value S0 K1 T r sigma "put" M = Ok p1 /\
    CRR_option_value S0 K2 T r sigma "put" M = Ok p2 /\
    c2 <= c1 /\ p1 <= p2.
Proof.
  intros HK HM HT Hs Hq.
  rewrite !CRR_option_value_eval by auto.
  do 4 eexists. do 4 (split; [reflexivity|]).
  pose proof (df_of_pos T r M) as Hdf.
  split; apply lattice_value_mono; auto; try lra; try lia;
    intros i t _ _; unfold initial_value, inner_value; simpl.
  - apply Rle_max_compat_r. lra.
  - apply Rle_max_compat_r. lra.
Qed.

Lemma price_monotone_in_strike_witness :
  exists c1 c2 p1 p2,
    CRR_option_value 100 90 1 0 1 "call" 2 = Ok c1 /\
    CRR_option_value 100 110 1 0 1 "call" 2 = Ok c2 /\
    CRR_option_value 100 90 1 0 1 "put" 2 = Ok p1 /\
    CRR_option_value 100 110 1 0 1 "put" 2 = Ok p2 /\
    c2 <= c1 /\ p1 <= p2.
Proof.
  apply price_monotone_in_strike; try lra; try lia.
  pose proof q_of_example. lra.
Defined.

Lemma index_level_mono (S1 S2 u d : R) (i t : nat) :
  S1 <= S2 -> 0 < u -> 0 < d ->
  index_level S1 u d i t <= index_level S2 u d i t.
Proof.
  intros HS Hu Hd. unfold index_level.
  pose proof (powerRZ_le u (Z.of_nat t - Z.of_nat i) Hu).
  pose proof (powerRZ_le d (Z.of_nat i) Hd).
  apply Rmult_le_compat_r; auto.
  apply Rmult_le_compat_r; auto.
Qed.

(** X12: monotonicity in the initial level.  For a branch probability in
    [0, 1], raising [S0] never lowers the returned call price and never
    raises the returned put price. *)
Theorem price_monotone_in_spot (S1 S2 K T r sigma : R) (M : Z) :
  S1 <= S2 -> (1 <= M)%Z -> 0 < T -> sigma <> 0 ->
  0 <= q_of T r sigma M <= 1 ->
  exists c1 c2 p1 p2,
    CRR_option_value S1 K T r sigma "call" M = Ok c1 /\
    CRR_option_value S2 K T r sigma "call" M = Ok c2 /\
    CRR_option_value S1 K T r sigma "put" M = Ok p1 /\
    CRR_option_value S2 K T r sigma "put" M = Ok p2 /\
    c1 <= c2 /\ p2 <= p1.
Proof.
  intros HS HM HT Hs Hq.
  rewrite !CRR_option_value_eval by auto.
  do 4 eexists. do 4 (split; [reflexivity|]).
  pose proof (df_of_pos T r M) as Hdf.
  split; apply lattice_value_mono; auto; try lra; try lia;
    intros i t _ _; unfold initial_value, inner_value; simpl;
    pose proof (index_level_mono S1 S2 (u_of T sigma M) (d_of T sigma M)
                  i t HS (u_of_pos T sigma M) (d_of_pos T sigma M));
    apply Rle_max_compat_r; lra.
Qed.

Lemma price_monotone_in_spot_witness :
  exists c1 c2 p1 p2,
    CRR_option_value 90 100 1 0 1 "call" 2 = Ok c1 /\
    CRR_option_value 110 100 1 0 1 "call" 2 = Ok c2 /\
    CRR_option_value 90 100 1 0 1 "put" 2 = Ok p1 /\
    CRR_option_value 110 100 1 0 1 "put" 2 = Ok p2 /\
    c1 <= c2 /\ p2 <= p1.
Proof.
  apply price_monotone_in_spot; try lra; try lia.
  pose proof q_of_example. lra.
Defined.

(** The difference of the call and the put that the function returns is
    the loop result on the grid [S - K]. *)
Lemma call_minus_put_eval (S0 K T r sigma : R) (M : Z) :
  (1 <= M)%Z -> 0 < T -> sigma <> 0 ->
  exists c p,
    CRR_option_value S0 K T r sigma "call" M = Ok c /\
    CRR_option_value S0 K T r sigma "put" M = Ok p /\
    c - p = lattice_value (q_of T r sigma M) (df_of T r M) (Z.to_nat M)
              (fun i t => index_level S0 (u_of T sigma M) (d_of T sigma M)
                            i t - K)
              (Z.to_nat M) 0.
Proof.
  intros HM HT Hs.
  rewrite !CRR_option_value_eval by auto.
  do 2 eexists. do 2 (split; [reflexivity|]).
  rewrite lattice_value_minus.
  apply lattice_value_ext; try lia.
  intros i t _ _. unfold initial_value, inner_value. simpl.
  apply rmax_call_minus_put.
Qed.

Lemma pow_le_one (x : R) (n : nat) : 0 <= x <= 1 -> x ^ n <= 1.
Proof.
  intros Hx. rewrite <- (pow1 n). apply pow_incr. exact Hx.
Qed.

(** X13: put-call parity holds as a two-sided bound for every number of
    steps.  For a non-negative strike and rate and a branch probability
    in [0, 1]:
    [S0 - K <= call - put <= S0 - K * exp(-r * T)]. *)
Theorem put_call_parity_bounds (S0 K T r sigma : R) (M : Z) :
  0 <= K -> 0 <= r -> (1 <= M)%Z -> 0 < T -> sigma <> 0 ->
  0 <= q_of T r sigma M <= 1 ->
  exists c p,
    CRR_option_value S0 K T r sigma "call" M = Ok c /\
    CRR_option_value S0 K T r sigma "put" M = Ok p /\
    S0 - K <= c - p <= S0 - K * exp (- (r * T)).
Proof.
  intros HK Hr HM HT Hs Hq.
  destruct (call_minus_put_eval S0 K T r sigma M HM HT Hs)
    as [c [p [Hc [Hp Hcp]]]].
  exists c, p. split; [exact Hc|]. split; [exact Hp|].
  rewrite Hcp. clear Hc Hp Hcp c p.
  pose proof (dt_pos T M HM HT) as Hdt.
  pose proof (df_of_pos T r M) as Hdf0.
  pose proof (df_of_le_1 T r M Hr (Rlt_le _ _ Hdt)) as Hdf1.
  set (u := u_of T sigma M). set (d := d_of T sigma M).
  set (q := q_of T r sigma M) in *. set (df := df_of T r M) in *.
  set (n := Z.to_nat M).
  assert (Hmart : forall i t,
             (q * index_level S0 u d i (t + 1)
              + (1 - q) * index_level S0 u d (i + 1) (t + 1)) * df
             = index_level S0 u d i t)
    by (intros i t; now apply index_level_martingale).
  split.
  - assert (B : index_level S0 u d 0 (n - n) - K
                <= lattice_value q df n
                     (fun i t => index_level S0 u d i t - K) n 0).
    { apply (lattice_value_lower q df n
               (fun i t => index_level S0 u d i t - K)
               (fun i t => index_level S0 u d i t - K)); try lia; auto;
        try lra.
      - intros i t _ _ _. lra.
      - intros i t _ _.
        replace ((q * (index_level S0 u d i (t + 1) - K)
                  + (1 - q) * (index_level S0 u d (i + 1) (t + 1) - K))
                 * df)
          with ((q * index_level S0 u d i (t + 1)
                 + (1 - q) * index_level S0 u d (i + 1) (t + 1)) * df
                - K * df) by ring.
        rewrite Hmart. nra. }
    now rewrite Nat.sub_diag, index_level_origin in B.
  - assert (B : lattice_value q df n
                  (fun i t => index_level S0 u d i t - K) n 0
                <= index_level S0 u d 0 (n - n) - K * df ^ (n - (n - n))).
    { apply (lattice_value_upper q df n
               (fun i t => index_level S0 u d i t - K)
               (fun i t => index_level S0 u d i t - K * df ^ (n - t)));
        try lia; auto; try lra.
      - intros i t _ _ _.
        pose proof (pow_le_one df (n - t) ltac:(lra)). nra.
      - intros i t _ Hi. right.
        replace (n - t)%nat with (S (n - (t + 1))) by lia.
        simpl pow.
        replace ((q * (index_level S0 u d i (t + 1)
                       - K * df ^ (n - (t + 1)))
                  + (1 - q) * (index_level S0 u d (i + 1) (t + 1)
                               - K * df ^ (n - (t + 1)))) * df)
          with ((q * index_level S0 u d i (t + 1)
                 + (1 - q) * index_level S0 u d (i + 1) (t + 1)) * df
                - K * (df * df ^ (n - (t + 1)))) by ring.
        now rewrite Hmart. }
    rewrite Nat.sub_diag, Nat.sub_0_r, index_level_origin in B.
    assert (Hpow : df ^ n = exp (- (r * T))).
    { unfold df, df_of, n. rewrite exp_pow_nat, INR_IZR_INZ, Z2Nat.id by lia.
      f_equal. unfold dt_of. field. apply not_0_IZR. lia. }
    now rewrite Hpow in B.
Qed.

Lemma put_call_parity_bounds_witness :
  exists c p,
    CRR_option_value 100 100 1 0 1 "call" 2 = Ok c /\
    CRR_option_value 100 100 1 0 1 "put" 2 = Ok p /\
    100 - 100 <= c - p <= 100 - 100 * exp (- (0 * 1)).
Proof.
  apply put_call_parity_bounds; try lra; try lia.
  pose proof q_of_example. lra.
Defined.

(** X14: with a zero rate, put-call parity is exact for every number of
    steps: [call - put = S0 - K], whatever the branch probability. *)
Theorem put_call_parity_zero_rate (S0 K T sigma : R) (M : Z) :
  (1 <= M)%Z -> 0 < T -> sigma <> 0 ->
  exists c p,
    CRR_option_value S0 K T 0 sigma "call" M = Ok c /\
    CRR_option_value S0 K T 0 sigma "put" M = Ok p /\
    c - p = S0 - K.
Proof.
  intros HM HT Hs.
  destruct (call_minus_put_eval S0 K T 0 sigma M HM HT Hs)
    as [c [p [Hc [Hp Hcp]]]].
  exists c, p. split; [exact Hc|]. split; [exact Hp|].
  rewrite Hcp. clear Hc Hp Hcp c p.
  pose proof (dt_pos T M HM HT) as Hdt.
  assert (Hdf : df_of T 0 M = 1).
  { unfold df_of. replace (- 0 * dt_of T M) with 0 by ring. apply exp_0. }
  set (u := u_of T sigma M). set (d := d_of T sigma M).
  set (n := Z.to_nat M).
  rewrite (lattice_value_exact (q_of T 0 sigma M) (df_of T 0 M) n
             (fun i t => index_level S0 u d i t - K)
             (fun i t => index_level S0 u d i t - K)); try lia; auto.
  - now rewrite Nat.sub_diag, index_level_origin.
  - intros i t _ _.
    pose proof (index_level_martingale S0 T 0 sigma M i t Hdt Hs) as Hm.
    fold u d in Hm. rewrite Hdf in *. lra.
Qed.

Lemma put_call_parity_zero_rate_witness :
  exists c p,
    CRR_option_value 100 90 1 0 0.2 "call" 4 = Ok c /\
    CRR_option_value 100 90 1 0 0.2 "put" 4 = Ok p /\
    c - p = 100 - 90.
Proof. apply put_call_parity_zero_rate; lra || lia. Defined.

Lemma pow_anti (x : R) (i n : nat) :
  0 <= x <= 1 -> (i <= n)%nat -> x ^ n <= x ^ i.
Proof.
  intros Hx Hin. replace n with (i + (n - i))%nat by lia.
  rewrite pow_add.
  pose proof (pow_le x i (proj1 Hx)).
  pose proof (pow_le_one x (n - i) Hx).
  pose proof (pow_le x (n - i) (proj1 Hx)). nra.
Qed.

(** On the triangle every index level lies between [S0 * d^M] and
    [S0 * u^M]. *)
Lemma index_level_range (S0 u d : R) (M i t : nat) :
  0 <= S0 -> 1 <= u -> 0 < d <= 1 -> (i <= t)%nat -> (t <= M)%nat ->
  S0 * d ^ M <= index_level S0 u d i t <= S0 * u ^ M.
Proof.
  intros HS Hu Hd Hit Ht. rewrite index_level_pow by auto.
  pose proof (pow_R1_Rle u (t - i) Hu) as Hu1.
  pose proof (Rle_pow u (t - i) M Hu ltac:(lia)) as Hu2.
  pose proof (pow_anti d i M ltac:(lra) ltac:(lia)) as Hd1.
  pose proof (pow_le_one d i ltac:(lra)) as Hd2.
  pose proof (pow_le d i ltac:(lra)) as Hd3.
  pose proof (pow_le d M ltac:(lra)) as Hd4.
  split.
  - apply Rle_trans with (S0 * 1 * d ^ i); [nra|].
    apply Rmult_le_compat_r; auto. apply Rmult_le_compat_l; auto.
  - apply Rle_trans with (S0 * u ^ (t - i) * 1).
    + apply Rmult_le_compat_l; auto. apply Rmult_le_pos; lra.
    + nra.
Qed.

Lemma u_of_example : 1 <= u_of 1 1 2 <= 3.
Proof.
  split; [apply u_of_ge_1; lra|].
  unfold u_of. rewrite Rmult_1_l.
  apply Rle_trans with (exp 1); [|apply exp_le_3].
  assert (H : sqrt (dt_of 1 2) <= 1).
  { apply Rle_trans with (sqrt 1); [|rewrite sqrt_1; lra].
    apply sqrt_le_1_alt. unfold dt_of. lra. }
  destruct H as [H|H]; [left; now apply exp_increasing | rewrite H; lra].
Qed.

(** X15: a put that is out of the money at every node is worth nothing:
    if [K <= S0 * d^M] (with [S0 >= 0] and a positive volatility) the
    returned put price is exactly [0]. *)
Theorem put_price_zero_below_lattice (S0 K T r sigma : R) (M : Z) :
  0 <= S0 -> 0 < sigma -> (1 <= M)%Z -> 0 < T ->
  K <= S0 * d_of T sigma M ^ Z.to_nat M ->
  CRR_option_value S0 K T r sigma "put" M = Ok 0.
Proof.
  intros HS Hs HM HT HK.
  rewrite CRR_option_value_eval by (auto; lra). f_equal.
  set (u := u_of T sigma M) in *. set (d := d_of T sigma M) in *.
  set (n := Z.to_nat M) in *.
  rewrite (lattice_value_exact _ _ n _ (fun _ _ => 0)); try lia; auto.
  - intros i t Hit Ht _. unfold initial_value, inner_value. simpl.
    pose proof (index_level_range S0 u d n i t HS
                  (u_of_ge_1 T sigma M (Rlt_le _ _ Hs))
                  (conj (d_of_pos T sigma M)
                        (d_of_le_1 T sigma M (Rlt_le _ _ Hs)))
                  Hit Ht) as [Hlo _].
    apply Rmax_right. fold d in Hlo. lra.
  - intros i t _ _. ring.
Qed.

Lemma put_price_zero_below_lattice_witness :
  CRR_option_value 100 1 1 0 1 "put" 2 = Ok 0.
Proof.
  apply put_price_zero_below_lattice; try lra; try lia.
  pose proof u_of_example as [Hu1 Hu2].
  assert (Hd : 1 / 3 <= d_of 1 1 2 <= 1).
  { unfold d_of. apply div_bounds; lra. }
  change (Z.to_nat 2) with 2%nat. simpl pow. nra.
Defined.

(** X16: a call that is out of the money at every node is worth nothing:
    if [S0 * u^M <= K] (with [S0 >= 0] and a positive volatility) the
    returned call price is exactly [0]. *)
Theorem call_price_zero_above_lattice (S0 K T r sigma : R) (M : Z) :
  0 <= S0 -> 0 < sigma -> (1 <= M)%Z -> 0 < T ->
  S0 * u_of T sigma M ^ Z.to_nat M <= K ->
  CRR_option_value S0 K T r sigma "call" M = Ok 0.
Proof.
  intros HS Hs HM HT HK.
  rewrite CRR_option_value_eval by (auto; lra). f_equal.
  set (u := u_of T sigma M) in *. set (d := d_of T sigma M) in *.
  set (n := Z.to_nat M) in *.
  rewrite (lattice_value_exact _ _ n _ (fun _ _ => 0)); try lia; auto.
  - intros i t Hit Ht _. unfold initial_value, inner_value. simpl.
    pose proof (index_level_range S0 u d n i t HS
                  (u_of_ge_1 T sigma M (Rlt_le _ _ Hs))
                  (conj (d_of_pos T sigma M)
                        (d_of_le_1 T sigma M (Rlt_le _ _ Hs)))
                  Hit Ht) as [_ Hhi].
    apply Rmax_right. fold u in Hhi. lra.
  - intros i t _ _. ring.
Qed.

Lemma call_price_zero_above_lattice_witness :
  CRR_option_value 100 900 1 0 1 "call" 2 = Ok 0.
Proof.
  apply call_price_zero_above_lattice; try lra; try lia.
  pose proof u_of_example as [Hu1 Hu2].
  change (Z.to_nat 2) with 2%nat. simpl pow. nra.
Defined.

(** X19: the branch probability is a probability exactly when the growth
    per step stays strictly between the down and the up move.  For
    [M >= 1], [T > 0] and [sigma > 0]:
    [0 < q < 1] iff [-sigma * sqrt dt < r * dt < sigma * sqrt dt]. *)
Theorem branch_probability_iff (T r sigma : R) (M : Z) :
  (1 <= M)%Z -> 0 < T -> 0 < sigma ->
  (0 < q_of T r sigma M < 1
   <-> - (sigma * sqrt (dt_of T M)) < r * dt_of T M
       < sigma * sqrt (dt_of T M)).
Proof.
  intros HM HT Hs. split; [|apply q_of_unit_interval].
  pose proof (dt_pos T M HM HT) as Hdt.
  pose proof (sqrt_lt_R0 _ Hdt) as Hsq.
  unfold q_of, d_of, u_of.
  set (x := sigma * sqrt (dt_of T M)) in *.
  set (a := r * dt_of T M) in *.
  assert (Hx : 0 < x) by (unfold x; apply Rmult_lt_0_compat; lra).
  assert (Hd : 1 / exp x = exp (- x))
    by (rewrite exp_Ropp; field; pose proof (exp_pos x); lra).
  rewrite Hd.
  assert (Hden : 0 < exp x - exp (- x))
    by (assert (- x < x) by lra; pose proof (exp_increasing _ _ H); lra).
  intros [Hq0 Hq1].
  set (qv := (exp a - exp (- x)) / (exp x - exp (- x))) in *.
  assert (Hnum : exp a - exp (- x) = qv * (exp x - exp (- x)))
    by (unfold qv; field; lra).
  split; apply exp_lt_inv; nra.
Qed.

Lemma branch_probability_iff_witness :
  0 < q_of 1 0 1 2 < 1.
Proof.
  apply (proj2 (branch_probability_iff 1 0 1 2
                  ltac:(lia) ltac:(lra) ltac:(lra))).
  assert (Hdt : 0 < dt_of 1 2) by (apply dt_pos; lia || lra).
  pose proof (sqrt_lt_R0 _ Hdt). lra.
Defined.

(** X20: the price with two steps.  The up node of step 1 is the
    discounted average of its two terminal payoffs; the down node of step
    1 enters with its own inner value [max(+-(S0 * d - K), 0)], the loop
    never assigns it. *)
Theorem two_step_price (S0 K T r sigma : R) (otype : string) :
  0 < T -> sigma <> 0 ->
  let u := u_of T sigma 2 in
  let d := d_of T sigma 2 in
  let q := q_of T r sigma 2 in
  let df := df_of T r 2 in
  CRR_option_value S0 K T r sigma otype 2 =
    Ok ((q * ((q * inner_value otype K (S0 * (u * u))
               + (1 - q) * inner_value otype K (S0 * u * d)) * df)
         + (1 - q) * inner_value otype K (S0 * d)) * df).
Proof.
  intros HT Hs u d q df.
  rewrite CRR_option_value_eval by (auto; lia).
  change (Z.to_nat 2) with 2%nat.
  cbn [lattice_value Nat.ltb Nat.leb Nat.add Nat.sub].
  unfold initial_value. rewrite !index_level_pow by lia.
  cbn [Nat.sub pow]. fold u d q df.
  do 3 f_equal; [do 3 f_equal|]; f_equal; f_equal; ring.
Qed.

Lemma two_step_price_witness :
  CRR_option_value 100 100 1 0.05 0.2 "call" 2 =
    Ok ((q_of 1 0.05 0.2 2
         * ((q_of 1 0.05 0.2 2
               * inner_value "call" 100
                   (100 * (u_of 1 0.2 2 * u_of 1 0.2 2))
             + (1 - q_of 1 0.05 0.2 2)
               * inner_value "call" 100
                   (100 * u_of 1 0.2 2 * d_of 1 0.2 2))
            * df_of 1 0.05 2)
         + (1 - q_of 1 0.05 0.2 2)
           * inner_value "call" 100 (100 * d_of 1 0.2 2))
        * df_of 1 0.05 2).
Proof. apply two_step_price; lra. Defined.

Lemma inner_value_lipschitz (otype : string) (K1 K2 s : R) :
  inner_value otype K1 s <= inner_value otype K2 s + Rabs (K1 - K2).
Proof.
  unfold inner_value.
  pose proof (Rle_abs (K1 - K2)). pose proof (Rle_abs (- (K1 - K2))).
  rewrite Rabs_Ropp in *.
  destruct (String.eqb otype "call").
  - pose proof (Rmax_l (s - K2) 0). pose proof (Rmax_r (s - K2) 0).
    apply Rmax_lub; lra.
  - pose proof (Rmax_l (K2 - s) 0). pose proof (Rmax_r (K2 - s) 0).
    apply Rmax_lub; lra.
Qed.

(** X21: the price is 1-Lipschitz in the strike.  For a non-negative rate
    and a branch probability in [0, 1], two strikes give prices that
    differ by at most the difference of the strikes, for a call and for a
    put alike. *)
Theorem price_lipschitz_in_strike
  (S0 K1 K2 T r sigma : R) (otype : string) (M : Z) :
  0 <= r -> (1 <= M)%Z -> 0 < T -> sigma <> 0 ->
  0 <= q_of T r sigma M <= 1 ->
  exists v1 v2,
    CRR_option_value S0 K1 T r sigma otype M = Ok v1 /\
    CRR_option_value S0 K2 T r sigma otype M = Ok v2 /\
    Rabs (v1 - v2) <= Rabs (K1 - K2).
Proof.
  intros Hr HM HT Hs Hq.
  rewrite !CRR_option_value_eval by auto.
  do 2 eexists. do 2 (split; [reflexivity|]).
  pose proof (dt_pos T M HM HT) as Hdt.
  pose proof (df_of_pos T r M) as Hdf0.
  pose proof (df_of_le_1 T r M Hr (Rlt_le _ _ Hdt)) as Hdf1.
  set (u := u_of T sigma M). set (d := d_of T sigma M).
  assert (H12 : lattice_value (q_of T r sigma M) (df_of T r M) (Z.to_nat M)
                  (initial_value S0 K1 u d otype) (Z.to_nat M) 0
                <= lattice_value (q_of T r sigma M) (df_of T r M)
                     (Z.to_nat M) (initial_value S0 K2 u d otype)
                     (Z.to_nat M) 0 + Rabs (K1 - K2)).
  { apply lattice_value_shift; auto; try lra; try lia.
    - apply Rabs_pos.
    - intros i t _ _. apply inner_value_lipschitz. }
  assert (H21 : lattice_value (q_of T r sigma M) (df_of T r M) (Z.to_nat M)
                  (initial_value S0 K2 u d otype) (Z.to_nat M) 0
                <= lattice_value (q_of T r sigma M) (df_of T r M)
                     (Z.to_nat M) (initial_value S0 K1 u d otype)
                     (Z.to_nat M) 0 + Rabs (K1 - K2)).
  { apply lattice_value_shift; auto; try lra; try lia.
    - apply Rabs_pos.
    - intros i t _ _. rewrite <- (Rabs_Ropp (K1 - K2)).
      replace (- (K1 - K2)) with (K2 - K1) by ring.
      apply inner_value_lipschitz. }
  apply Rabs_le. lra.
Qed.

Lemma price_lipschitz_in_strike_witness :
  exists v1 v2,
    CRR_option_value 100 90 1 0 1 "put" 2 = Ok v1 /\
    CRR_option_value 100 110 1 0 1 "put" 2 = Ok v2 /\
    Rabs (v1 - v2) <= Rabs (90 - 110).
Proof.
  apply price_lipschitz_in_strike; try lra; try lia.
  pose proof q_of_example. lra.
Defined.
